(** * ArenaAllocator: a linear (bump) allocator

    Shallow embedding of [include/arena_allocator.h] and verification of its
    specification.

    Machine model.  [size_t] and [uintptr_t] are 64-bit unsigned integers;
    they are carried as [Z] and every C++ arithmetic operation on them is
    followed by an explicit reduction modulo [2^64] ([wrap]).  Pointers are
    their integer value ([reinterpret_cast<uintptr_t>]); [nullptr] is [0].
    Memory outside the allocator's three fields is a total map from
    addresses to bytes, and the constructor / destructor calls a client
    performs are recorded in a log. *)

From Stdlib Require Import ZArith List Lia Bool.
Import ListNotations.
Local Open Scope Z_scope.

(** ** Machine integers *)

Definition size_bits : Z := 64.
Definition modulus : Z := 2 ^ size_bits.

(** Result of an unsigned 64-bit operation whose exact value is [x]. *)
Definition wrap (x : Z) : Z := x mod modulus.

Definition nullptr : Z := 0.

(** [align] is a power of two representable in [size_t]. *)
Definition is_pow2 (align : Z) : bool :=
  (0 <? align) && (align <? modulus) && (align =? 2 ^ Z.log2 align).

(** ** The allocator object *)

Record ArenaAllocator : Type := mkArena {
  m_memoryBlock : Z;   (* std::byte* : address of the buffer, 0 when null *)
  m_totalSize   : Z;   (* size_t     : total capacity                     *)
  m_offset      : Z    (* size_t     : current allocation offset          *)
}.

(** [explicit ArenaAllocator(const size_t sizeInBytes)].  The value returned
    by [malloc] is an input of the model; [None] stands for the thrown
    [std::bad_alloc].  [m_offset] takes its default member initialiser. *)
Definition construct (malloc_result sizeInBytes : Z) : option ArenaAllocator :=
  let memoryBlock := malloc_result in
  let totalSize := sizeInBytes in
  if memoryBlock =? nullptr then None
  else Some (mkArena memoryBlock totalSize 0).

(** The local [padding] of [Alloc]. *)
Definition Alloc_padding (a : ArenaAllocator) (align : Z) : Z :=
  let currentPtr := wrap (m_memoryBlock a + m_offset a) in
  let offset := Z.land currentPtr (wrap (align - 1)) in
  if offset =? 0 then 0 else wrap (align - offset).

(** [void* Alloc(const size_t size, const size_t align)].  Returns the
    allocator after the call and the returned pointer. *)
Definition Alloc (a : ArenaAllocator) (size align : Z) : ArenaAllocator * Z :=
  let currentPtr := wrap (m_memoryBlock a + m_offset a) in
  let offset := Z.land currentPtr (wrap (align - 1)) in
  let padding := if offset =? 0 then 0 else wrap (align - offset) in
  if wrap (wrap (m_offset a + padding) + size) >? m_totalSize a then
    (a, nullptr)
  else
    let nextAddress := wrap (currentPtr + padding) in
    (mkArena (m_memoryBlock a) (m_totalSize a)
             (wrap (m_offset a + wrap (padding + size))),
     nextAddress).

(** [void Reset()] *)
Definition Reset (a : ArenaAllocator) : ArenaAllocator :=
  mkArena (m_memoryBlock a) (m_totalSize a) 0.

Definition GetUsedMemory (a : ArenaAllocator) : Z := m_offset a.
Definition GetTotalSize (a : ArenaAllocator) : Z := m_totalSize a.

(** [using Marker = size_t;] *)
Definition Marker : Type := Z.

Definition GetMarker (a : ArenaAllocator) : Marker := m_offset a.

(** [void ResetToMarker(const Marker marker)] *)
Definition ResetToMarker (a : ArenaAllocator) (marker : Marker) : ArenaAllocator :=
  mkArena (m_memoryBlock a) (m_totalSize a) marker.

(** ** Types, memory and object lifetime *)

(** What the templates read of their type argument. *)
Record cpp_type : Type := mkType {
  sizeof  : Z;
  alignof : Z
}.

(** Byte-addressed memory. *)
Definition memory : Type := Z -> Z.

Definition store (m : memory) (addr byte : Z) : memory :=
  fun x => if x =? addr then byte else m x.

Inductive event : Type :=
  | Constructed (addr : Z)
  | Destructed (addr : Z).

(** A constructor call [T(args...)] with its arguments fixed, or a
    destructor: given the object's address, its effect on memory. *)
Definition effect : Type := Z -> memory -> memory.

Record machine : Type := mkMachine {
  arena : ArenaAllocator;
  mem   : memory;
  log   : list event
}.

(** [T* AllocArray(const size_t count)] *)
Definition AllocArray (a : ArenaAllocator) (T : cpp_type) (count : Z)
  : ArenaAllocator * Z :=
  Alloc a (wrap (sizeof T * count)) (alignof T).

(** [T* New(Args&&... args)]; [ctor] is the placement construction
    [new (mem) T(std::forward<Args>(args)...)]. *)
Definition New (s : machine) (T : cpp_type) (ctor : effect) : machine * Z :=
  let '(a', p) := Alloc (arena s) (sizeof T) (alignof T) in
  if p =? nullptr then
    (mkMachine a' (mem s) (log s), nullptr)
  else
    (mkMachine a' (ctor p (mem s)) (log s ++ [Constructed p]), p).

(** An explicit destructor call [obj->~T()] made by the client. *)
Definition Destroy (s : machine) (dtor : effect) (obj : Z) : machine :=
  mkMachine (arena s) (dtor obj (mem s)) (log s ++ [Destructed obj]).

(** ** Client programs *)

Inductive alloc_call : Type :=
  | CallAlloc (size align : Z)
  | CallNew (T : cpp_type) (ctor : effect)
  | CallAllocArray (T : cpp_type) (count : Z).

Inductive op : Type :=
  | OpCall (c : alloc_call)
  | OpReset
  | OpGetMarker
  | OpResetToMarker (marker : Marker).

Definition with_arena (s : machine) (a : ArenaAllocator) : machine :=
  mkMachine a (mem s) (log s).

(** The arguments an allocation call hands to [Alloc]. *)
Definition request (c : alloc_call) : Z * Z :=
  match c with
  | CallAlloc size align => (size, align)
  | CallNew T _ => (sizeof T, alignof T)
  | CallAllocArray T count => (wrap (sizeof T * count), alignof T)
  end.

(** One allocation call: machine after the call and returned pointer. *)
Definition call (c : alloc_call) (s : machine) : machine * Z :=
  match c with
  | CallAlloc size align =>
      let '(a', p) := Alloc (arena s) size align in (with_arena s a', p)
  | CallNew T ctor => New s T ctor
  | CallAllocArray T count =>
      let '(a', p) := AllocArray (arena s) T count in (with_arena s a', p)
  end.

(** One operation: machine after it and the value it returns ([0] for the
    [void] methods). *)
Definition step (o : op) (s : machine) : machine * Z :=
  match o with
  | OpCall c => call c s
  | OpReset => (with_arena s (Reset (arena s)), 0)
  | OpGetMarker => (s, GetMarker (arena s))
  | OpResetToMarker marker => (with_arena s (ResetToMarker (arena s) marker), 0)
  end.

Fixpoint run (ops : list op) (s : machine) : machine :=
  match ops with
  | [] => s
  | o :: rest => run rest (fst (step o s))
  end.

(** Every state a program goes through, the initial one included. *)
Fixpoint states (ops : list op) (s : machine) : list machine :=
  s :: match ops with
       | [] => []
       | o :: rest => states rest (fst (step o s))
       end.

(** The pointers returned by a sequence of allocation calls. *)
Fixpoint addresses (cs : list alloc_call) (s : machine) : list Z :=
  match cs with
  | [] => []
  | c :: rest => snd (call c s) :: addresses rest (fst (call c s))
  end.

Fixpoint run_calls (cs : list alloc_call) (s : machine) : machine :=
  match cs with
  | [] => s
  | c :: rest => run_calls rest (fst (call c s))
  end.

(** [markers_ok seen ops s]: every marker the program [ops] passes to
    [ResetToMarker] when started in [s] is in [seen] or was returned by an
    earlier [GetMarker] of the program. *)
Fixpoint markers_ok (seen : list Marker) (ops : list op) (s : machine) : bool :=
  match ops with
  | [] => true
  | o :: rest =>
      match o with
      | OpGetMarker =>
          markers_ok (snd (step o s) :: seen) rest (fst (step o s))
      | OpResetToMarker marker =>
          existsb (Z.eqb marker) seen && markers_ok seen rest (fst (step o s))
      | _ => markers_ok seen rest (fst (step o s))
      end
  end.

(** ** State predicates *)

(** The specification's invariant on the bump position. *)
Definition offset_in_bounds (a : ArenaAllocator) : Prop :=
  0 <= m_offset a <= m_totalSize a.

(** The bound of the invariant, in a state and after any further [Alloc]. *)
Definition bounded_by (cap : Z) (s : machine) : Prop :=
  m_totalSize (arena s) = cap /\
  0 <= m_offset (arena s) <= cap /\
  forall size align, 0 <= m_offset (fst (Alloc (arena s) size align)) <= cap.

(** The [Active] state: a non-null buffer that lies inside the address
    space, its one-past-the-end address included, and an offset inside it. *)
Definition Active (a : ArenaAllocator) : Prop :=
  0 < m_memoryBlock a /\
  m_memoryBlock a + m_totalSize a < modulus /\
  0 <= m_offset a <= m_totalSize a.

Definition Activeb (a : ArenaAllocator) : bool :=
  (0 <? m_memoryBlock a) &&
  (m_memoryBlock a + m_totalSize a <? modulus) &&
  (0 <=? m_offset a) && (m_offset a <=? m_totalSize a).

(** Largest object size of the platform. *)
Definition PTRDIFF_MAX : Z := 2 ^ (size_bits - 1) - 1.

(** What C++ guarantees of a complete object type [T]: [sizeof(T)] is
    positive, at most [PTRDIFF_MAX] and a multiple of [alignof(T)], which is
    a power of two. *)
Definition object_type (T : cpp_type) : bool :=
  (0 <? sizeof T) && (sizeof T <=? PTRDIFF_MAX) &&
  is_pow2 (alignof T) && (sizeof T mod alignof T =? 0).

(** A request [Alloc(size, align)] on a buffer of [cap] bytes for which the
    sum of the capacity test cannot wrap, whatever the offset. *)
Definition plain_request (cap : Z) (c : alloc_call) : bool :=
  is_pow2 (snd (request c)) && (0 <=? fst (request c)) &&
  (cap + snd (request c) + fst (request c) <=? modulus).

(** ** The test suite's [TestObj] *)

(** [struct TestObj { bool* isDestructed; ... }]: the constructor sets
    [*isDestructed = false], the destructor sets it to [true].  The stored
    pointer itself is written little-endian. *)
Definition TestObj : cpp_type := mkType 8 8.

Fixpoint store_le (n : nat) (addr v : Z) (m : memory) : memory :=
  match n with
  | O => m
  | S k => store_le k (addr + 1) (Z.shiftr v 8) (store m addr (Z.land v 255))
  end.

Definition TestObj_ctor (flag : Z) : effect :=
  fun this m => store (store_le 8 this flag m) flag 0.

Fixpoint load_le (n : nat) (addr : Z) (m : memory) : Z :=
  match n with
  | O => 0
  | S k => m addr + 256 * load_le k (addr + 1) m
  end.

Definition TestObj_dtor : effect :=
  fun this m => store m (load_le 8 this m) 1.

(** ** Ownership of the buffer *)

(** The C heap as far as the allocator sees it: the blocks [malloc] has
    handed out and [free] has not taken back. *)
Definition heap : Type := list Z.

(** [free(p)]: a no-op on null, the release of a live block otherwise;
    [None] is the undefined behaviour of freeing anything else. *)
Definition free (p : Z) (h : heap) : option heap :=
  if p =? nullptr then Some h
  else if existsb (Z.eqb p) h then Some (remove Z.eq_dec p h)
  else None.

(** [ArenaAllocator(ArenaAllocator &&other) noexcept]: the constructed
    object and [other] after the call. *)
Definition move_construct (other : ArenaAllocator)
  : ArenaAllocator * ArenaAllocator :=
  let this := mkArena (m_memoryBlock other) (m_totalSize other) (m_offset other) in
  let other' := mkArena nullptr 0 0 in
  (this, other').

(** The allocator objects of a program, by the address they live at. *)
Definition objects : Type := nat -> option ArenaAllocator.

Definition no_objects : objects := fun _ => None.

Definition update (objs : objects) (i : nat) (v : option ArenaAllocator)
  : objects :=
  fun k => if Nat.eqb k i then v else objs k.

Record world : Type := mkWorld {
  objs  : objects;
  cheap : heap;
  wmem  : memory;
  wlog  : list event
}.

Inductive lifecycle_op : Type :=
  | LConstruct (this : nat) (malloc_result sizeInBytes : Z)
  | LDestroy (this : nat)
  | LMoveConstruct (this other : nat)
  | LMoveAssign (this other : nat)
  | LUse (this : nat) (o : op).

(** [~ArenaAllocator()] *)
Definition destroy (this : nat) (w : world) : option world :=
  match objs w this with
  | None => None
  | Some a =>
      match free (m_memoryBlock a) (cheap w) with
      | None => None
      | Some h => Some (mkWorld (update (objs w) this None) h (wmem w) (wlog w))
      end
  end.

(** [ArenaAllocator &operator=(ArenaAllocator &&other) noexcept] *)
Definition move_assign (this other : nat) (w : world) : option world :=
  match objs w this, objs w other with
  | Some a, Some b =>
      if negb (Nat.eqb this other) then
        match free (m_memoryBlock a) (cheap w) with
        | None => None
        | Some h =>
            let a' := mkArena (m_memoryBlock b) (m_totalSize b) (m_offset b) in
            let b' := mkArena nullptr 0 0 in
            Some (mkWorld (update (update (objs w) this (Some a')) other (Some b'))
                          h (wmem w) (wlog w))
        end
      else Some w
  | _, _ => None
  end.

(** One step of a program that creates, uses, moves and destroys
    allocators.  [None] is undefined behaviour: an invalid [free], or the
    use of an object outside its lifetime.  A constructor whose [malloc]
    failed throws and leaves no object behind. *)
Definition life_step (o : lifecycle_op) (w : world) : option world :=
  match o with
  | LConstruct this malloc_result sizeInBytes =>
      match objs w this with
      | Some _ => None
      | None =>
          match construct malloc_result sizeInBytes with
          | None => Some w
          | Some a =>
              Some (mkWorld (update (objs w) this (Some a))
                            (malloc_result :: cheap w) (wmem w) (wlog w))
          end
      end
  | LDestroy this => destroy this w
  | LMoveConstruct this other =>
      match objs w this, objs w other with
      | None, Some b =>
          let '(a', b') := move_construct b in
          Some (mkWorld (update (update (objs w) this (Some a')) other (Some b'))
                        (cheap w) (wmem w) (wlog w))
      | _, _ => None
      end
  | LMoveAssign this other => move_assign this other w
  | LUse this o' =>
      match objs w this with
      | None => None
      | Some a =>
          let s' := fst (step o' (mkMachine a (wmem w) (wlog w))) in
          Some (mkWorld (update (objs w) this (Some (arena s')))
                        (cheap w) (mem s') (log s'))
      end
  end.

Fixpoint life_run (ops : list lifecycle_op) (w : world) : option world :=
  match ops with
  | [] => Some w
  | o :: rest =>
      match life_step o w with
      | None => None
      | Some w' => life_run rest w'
      end
  end.

Definition alive (w : world) (i : nat) : bool :=
  match objs w i with Some _ => true | None => false end.

(** What the language and [malloc] guarantee of one step: constructors run
    on storage that holds no object, every other method on a live object,
    and [malloc] returns null or a block that is not live. *)
Definition in_lifetime (o : lifecycle_op) (w : world) : bool :=
  match o with
  | LConstruct this malloc_result _ =>
      negb (alive w this) &&
      ((malloc_result =? nullptr) || negb (existsb (Z.eqb malloc_result) (cheap w)))
  | LDestroy this => alive w this
  | LMoveConstruct this other => negb (alive w this) && alive w other
  | LMoveAssign this other => alive w this && alive w other
  | LUse this _ => alive w this
  end.

Fixpoint scoped (ops : list lifecycle_op) (w : world) : bool :=
  match ops with
  | [] => true
  | o :: rest =>
      in_lifetime o w &&
      match life_step o w with
      | None => true
      | Some w' => scoped rest w'
      end
  end.

(** Each live block has exactly one owner and each owner's block is live. *)
Definition owned (w : world) : Prop :=
  NoDup (cheap w) /\
  ~ In nullptr (cheap w) /\
  (forall i a, objs w i = Some a -> m_memoryBlock a <> nullptr ->
               In (m_memoryBlock a) (cheap w)) /\
  (forall i j a b, objs w i = Some a -> objs w j = Some b ->
                   m_memoryBlock a = m_memoryBlock b ->
                   m_memoryBlock a <> nullptr -> i = j) /\
  (forall p, In p (cheap w) ->
             exists i a, objs w i = Some a /\ m_memoryBlock a = p).

(** ** Arrays *)

(** The address of [array[i]] for [T* array]. *)
Definition element_address (array : Z) (T : cpp_type) (i : Z) : Z :=
  array + sizeof T * i.

(** * Properties *)

(** ** Modular arithmetic *)

Lemma modulus_value : modulus = 18446744073709551616.
Proof. reflexivity. Qed.

Lemma modulus_pos : 0 < modulus.
Proof. rewrite modulus_value. lia. Qed.

Lemma wrap_range (x : Z) : 0 <= wrap x < modulus.
Proof. unfold wrap. apply Z.mod_pos_bound, modulus_pos. Qed.

Lemma wrap_small (x : Z) : 0 <= x < modulus -> wrap x = x.
Proof. intros H. unfold wrap. now apply Z.mod_small. Qed.

(** The sum tested by [Alloc] and the sum it stores are the same number. *)
Lemma wrap_sum_assoc (x y z : Z) :
  wrap (x + wrap (y + z)) = wrap (wrap (x + y) + z).
Proof.
  unfold wrap.
  rewrite Zplus_mod_idemp_r, Zplus_mod_idemp_l.
  f_equal. lia.
Qed.

(** ** Frame and bounds of [Alloc] *)

Lemma Alloc_frame (a : ArenaAllocator) (size align : Z) :
  m_memoryBlock (fst (Alloc a size align)) = m_memoryBlock a /\
  m_totalSize (fst (Alloc a size align)) = m_totalSize a.
Proof.
  unfold Alloc.
  destruct (_ >? _); simpl; split; reflexivity.
Qed.

Lemma Alloc_offset_in_bounds (a : ArenaAllocator) (size align : Z) :
  offset_in_bounds a -> offset_in_bounds (fst (Alloc a size align)).
Proof.
  unfold offset_in_bounds, Alloc. intros Ha.
  set (padding := if _ =? 0 then 0 else _).
  destruct (Z.gtb_spec (wrap (wrap (m_offset a + padding) + size)) (m_totalSize a))
    as [Hgt | Hle]; simpl.
  - exact Ha.
  - rewrite wrap_sum_assoc. split.
    + apply wrap_range.
    + exact Hle.
Qed.

Lemma call_Alloc (c : alloc_call) (s : machine) :
  arena (fst (call c s)) = fst (Alloc (arena s) (fst (request c)) (snd (request c))) /\
  snd (call c s) = snd (Alloc (arena s) (fst (request c)) (snd (request c))).
Proof.
  destruct c as [size align | T ctor | T count]; simpl.
  - destruct (Alloc (arena s) size align); simpl; auto.
  - unfold New. destruct (Alloc (arena s) (sizeof T) (alignof T)) as [a' p]; simpl.
    destruct (Z.eqb_spec p nullptr) as [-> | Hp]; simpl; auto.
  - unfold AllocArray.
    destruct (Alloc (arena s) (wrap (sizeof T * count)) (alignof T)); simpl; auto.
Qed.

Lemma step_frame (o : op) (s : machine) :
  m_memoryBlock (arena (fst (step o s))) = m_memoryBlock (arena s) /\
  m_totalSize (arena (fst (step o s))) = m_totalSize (arena s).
Proof.
  destruct o as [c | | | marker]; simpl; auto.
  destruct (call_Alloc c s) as [-> _]. apply Alloc_frame.
Qed.

Lemma run_frame (ops : list op) (s : machine) :
  m_memoryBlock (arena (run ops s)) = m_memoryBlock (arena s) /\
  m_totalSize (arena (run ops s)) = m_totalSize (arena s).
Proof.
  revert s. induction ops as [| o rest IH]; intros s; simpl.
  - auto.
  - destruct (IH (fst (step o s))) as [-> ->]. apply step_frame.
Qed.

(** ** The bound on the offset is an invariant *)

Lemma bounded_by_intro (cap : Z) (s : machine) :
  m_totalSize (arena s) = cap -> 0 <= m_offset (arena s) <= cap ->
  bounded_by cap s.
Proof.
  intros Hcap Hoff. repeat split; try tauto.
  - apply (Alloc_offset_in_bounds (arena s) size align).
    unfold offset_in_bounds. lia.
  - rewrite <- Hcap, <- (proj2 (Alloc_frame (arena s) size align)).
    apply (Alloc_offset_in_bounds (arena s) size align).
    unfold offset_in_bounds. lia.
Qed.

Lemma states_bounded (cap : Z) (ops : list op) :
  forall (seen : list Marker) (s : machine),
    m_totalSize (arena s) = cap ->
    0 <= m_offset (arena s) <= cap ->
    Forall (fun m => 0 <= m <= cap) seen ->
    markers_ok seen ops s = true ->
    Forall (bounded_by cap) (states ops s).
Proof.
  induction ops as [| o rest IH]; intros seen s Hcap Hoff Hseen Hok; simpl.
  - constructor; [now apply bounded_by_intro | constructor].
  - constructor; [now apply bounded_by_intro |].
    destruct (step_frame o s) as [_ Hcap'].
    destruct o as [c | | | marker]; simpl in Hok.
    + apply (IH seen); auto; try congruence.
      simpl. destruct (call_Alloc c s) as [Ha _].
      simpl in Hcap'. rewrite Ha in *.
      pose proof (Alloc_offset_in_bounds (arena s) (fst (request c)) (snd (request c))) as Hb.
      unfold offset_in_bounds in Hb. rewrite Hcap' in Hb. lia.
    + apply (IH seen); auto; try congruence. simpl. lia.
    + apply (IH (GetMarker (arena s) :: seen)); simpl; auto.
    + apply andb_true_iff in Hok. destruct Hok as [Hin Hok].
      apply (IH seen); auto; try congruence.
      simpl. apply existsb_exists in Hin. destruct Hin as [m [Hm Heq]].
      apply Z.eqb_eq in Heq. subst m.
      rewrite Forall_forall in Hseen. now apply Hseen.
Qed.

(** C1: starting from a constructed arena, in every state reached by a
    program of Alloc / New / AllocArray / Reset / GetMarker / ResetToMarker
    calls whose ResetToMarker arguments were all returned by an earlier
    GetMarker, [0 <= offset <= capacity] holds, the capacity is the one given
    at construction, and no further Alloc, whatever its size and alignment,
    takes the offset above the capacity. *)
Theorem offset_never_exceeds_capacity :
  forall (malloc_result sizeInBytes : Z) (a : ArenaAllocator)
         (m0 : memory) (ops : list op),
    0 <= sizeInBytes ->
    construct malloc_result sizeInBytes = Some a ->
    markers_ok [] ops (mkMachine a m0 []) = true ->
    Forall (fun s =>
              m_totalSize (arena s) = sizeInBytes /\
              0 <= m_offset (arena s) <= sizeInBytes /\
              forall size align,
                0 <= m_offset (fst (Alloc (arena s) size align)) <= sizeInBytes)
           (states ops (mkMachine a m0 [])).
Proof.
  intros malloc_result sizeInBytes a m0 ops Hsize Hctor Hok.
  unfold construct in Hctor.
  destruct (malloc_result =? nullptr); [discriminate |].
  injection Hctor as <-.
  apply (states_bounded sizeInBytes ops [] _); simpl; auto; lia.
Qed.

Lemma offset_never_exceeds_capacity_witness :
  Forall (fun s =>
            m_totalSize (arena s) = 100 /\
            0 <= m_offset (arena s) <= 100 /\
            forall size align,
              0 <= m_offset (fst (Alloc (arena s) size align)) <= 100)
         (states [OpCall (CallAlloc 10 1); OpGetMarker;
                  OpCall (CallAlloc (modulus - 5) 1);
                  OpResetToMarker 10; OpReset]
                 (mkMachine (mkArena 4096 100 0) (fun _ => 0) [])).
Proof.
  apply (offset_never_exceeds_capacity 4096 100 (mkArena 4096 100 0)
           (fun _ => 0) _).
  - lia.
  - reflexivity.
  - vm_compute. reflexivity.
Defined.

(** ** Alignment by masking *)

Lemma is_pow2_spec (align : Z) :
  is_pow2 align = true -> exists k, 0 <= k < size_bits /\ align = 2 ^ k.
Proof.
  unfold is_pow2. intros H.
  apply andb_true_iff in H. destruct H as [H Heq].
  apply andb_true_iff in H. destruct H as [Hpos Hlt].
  apply Z.ltb_lt in Hpos, Hlt. apply Z.eqb_eq in Heq.
  exists (Z.log2 align). split; [split |].
  - apply Z.log2_nonneg.
  - apply Z.log2_lt_pow2; assumption.
  - exact Heq.
Qed.

Lemma is_pow2_bounds (align : Z) :
  is_pow2 align = true -> 0 < align < modulus.
Proof.
  unfold is_pow2. intros H.
  apply andb_true_iff in H. destruct H as [H _].
  apply andb_true_iff in H. destruct H as [Hpos Hlt].
  apply Z.ltb_lt in Hpos, Hlt. lia.
Qed.

(** [x & (align - 1)] is [x mod align] when [align] is a power of two. *)
Lemma mask_is_mod (x align : Z) :
  is_pow2 align = true -> Z.land x (wrap (align - 1)) = x mod align.
Proof.
  intros Hal.
  pose proof (is_pow2_bounds align Hal) as Hb.
  destruct (is_pow2_spec align Hal) as [k [Hk ->]].
  rewrite wrap_small by lia.
  replace (2 ^ k - 1) with (Z.ones k) by (rewrite Z.ones_equiv; lia).
  apply Z.land_ones. lia.
Qed.

Section AlignedRequest.

Variable a : ArenaAllocator.
Variable align : Z.
Hypothesis Hactive : Active a.
Hypothesis Halign : is_pow2 align = true.

Lemma currentPtr_exact :
  wrap (m_memoryBlock a + m_offset a) = m_memoryBlock a + m_offset a.
Proof.
  destruct Hactive as [Hb [Hc Ho]].
  apply wrap_small. lia.
Qed.

Lemma Alloc_padding_eq :
  Alloc_padding a align =
  if (m_memoryBlock a + m_offset a) mod align =? 0 then 0
  else align - (m_memoryBlock a + m_offset a) mod align.
Proof.
  unfold Alloc_padding.
  rewrite currentPtr_exact, mask_is_mod by exact Halign.
  destruct (_ =? 0); [reflexivity |].
  pose proof (is_pow2_bounds align Halign) as Hb.
  pose proof (Z.mod_pos_bound (m_memoryBlock a + m_offset a) align (proj1 Hb)).
  apply wrap_small. lia.
Qed.

Lemma Alloc_padding_range : 0 <= Alloc_padding a align < align.
Proof.
  rewrite Alloc_padding_eq.
  pose proof (is_pow2_bounds align Halign) as Hb.
  pose proof (Z.mod_pos_bound (m_memoryBlock a + m_offset a) align (proj1 Hb)).
  destruct (Z.eqb_spec ((m_memoryBlock a + m_offset a) mod align) 0); lia.
Qed.

Lemma Alloc_padding_aligns :
  (m_memoryBlock a + m_offset a + Alloc_padding a align) mod align = 0.
Proof.
  rewrite Alloc_padding_eq.
  pose proof (is_pow2_bounds align Halign) as Hb.
  destruct (Z.eqb_spec ((m_memoryBlock a + m_offset a) mod align) 0) as [H0 | Hn].
  - now rewrite Z.add_0_r.
  - set (cur := m_memoryBlock a + m_offset a) in *.
    replace (cur + (align - cur mod align))
      with ((cur - cur mod align) + 1 * align) by lia.
    rewrite Z.mod_add by lia.
    rewrite Zminus_mod_idemp_r, Z.sub_diag.
    apply Z.mod_0_l. lia.
Qed.

(** No address from the bump address up to the returned one is aligned. *)
Lemma Alloc_padding_least (q : Z) :
  m_memoryBlock a + m_offset a <= q -> q mod align = 0 ->
  m_memoryBlock a + m_offset a + Alloc_padding a align <= q.
Proof.
  intros Hq Hmod.
  pose proof (is_pow2_bounds align Halign) as Hb.
  pose proof Alloc_padding_range as Hr.
  pose proof Alloc_padding_aligns as Hp.
  apply Z.mod_divide in Hmod; [| lia]. destruct Hmod as [i Hi].
  apply Z.mod_divide in Hp; [| lia]. destruct Hp as [j Hj].
  destruct (Z_le_gt_dec (m_memoryBlock a + m_offset a + Alloc_padding a align) q)
    as [Hle | Hgt]; [exact Hle | exfalso].
  assert (i < j) by nia.
  nia.
Qed.

(** [Alloc] when the sum of its capacity test does not wrap. *)
Lemma Alloc_no_wrap (size : Z) :
  0 <= size ->
  m_offset a + Alloc_padding a align + size < modulus ->
  Alloc a size align =
  if m_offset a + Alloc_padding a align + size >? m_totalSize a then
    (a, nullptr)
  else
    (mkArena (m_memoryBlock a) (m_totalSize a)
             (m_offset a + Alloc_padding a align + size),
     wrap (m_memoryBlock a + m_offset a + Alloc_padding a align)).
Proof.
  intros Hsize Hsum.
  pose proof Alloc_padding_range as Hr.
  destruct Hactive as [Hb [Hc Ho]].
  unfold Alloc. fold (Alloc_padding a align).
  rewrite <- wrap_sum_assoc.
  rewrite (wrap_small (Alloc_padding a align + size)) by lia.
  rewrite Z.add_assoc.
  rewrite (wrap_small (m_offset a + Alloc_padding a align + size)) by lia.
  rewrite currentPtr_exact.
  reflexivity.
Qed.

(** A request that fits is served at the aligned address. *)
Lemma Alloc_fits (size : Z) :
  0 <= size ->
  m_offset a + Alloc_padding a align + size <= m_totalSize a ->
  Alloc a size align =
  (mkArena (m_memoryBlock a) (m_totalSize a)
           (m_offset a + Alloc_padding a align + size),
   m_memoryBlock a + m_offset a + Alloc_padding a align).
Proof.
  intros Hsize Hfit.
  pose proof Alloc_padding_range as Hr.
  destruct Hactive as [Hb [Hc Ho]].
  rewrite Alloc_no_wrap by lia.
  destruct (Z.gtb_spec (m_offset a + Alloc_padding a align + size) (m_totalSize a)); [lia |].
  rewrite wrap_small by lia. reflexivity.
Qed.

End AlignedRequest.

(** ** Aligned allocation *)

(** C3: in an Active arena, for a power-of-two [align] and a request whose
    padding plus size fits in the remaining capacity, [Alloc] returns a
    non-null address that is a multiple of [align]; it is the buffer's bump
    address plus the padding computed by masking, that padding is smaller
    than [align], and the address is the least [align]-aligned address at or
    after the bump address.  The offset advances by padding plus size. *)
Theorem Alloc_returns_aligned_address :
  forall (a : ArenaAllocator) (size align : Z),
    Active a ->
    is_pow2 align = true ->
    0 <= size ->
    Alloc_padding a align + size <= m_totalSize a - m_offset a ->
    let p := snd (Alloc a size align) in
    p <> nullptr /\
    p mod align = 0 /\
    p = m_memoryBlock a + m_offset a + Alloc_padding a align /\
    0 <= Alloc_padding a align < align /\
    (forall q, m_memoryBlock a + m_offset a <= q -> q mod align = 0 -> p <= q) /\
    m_offset (fst (Alloc a size align)) =
      m_offset a + Alloc_padding a align + size.
Proof.
  intros a size align Hactive Halign Hsize Hfit p. subst p.
  rewrite (Alloc_fits a align Hactive Halign size Hsize) by lia.
  simpl.
  pose proof (Alloc_padding_range a align Hactive Halign) as Hr.
  destruct Hactive as [Hb [Hc Ho]].
  repeat split; try lia.
  - unfold nullptr. lia.
  - apply Alloc_padding_aligns; unfold Active; auto.
  - intros q Hq Hmod. apply Alloc_padding_least; unfold Active; auto.
Qed.

Lemma Alloc_returns_aligned_address_witness :
  let a := mkArena 4096 1024 1 in
  let p := snd (Alloc a 8 8) in
  p <> nullptr /\
  p mod 8 = 0 /\
  p = m_memoryBlock a + m_offset a + Alloc_padding a 8 /\
  0 <= Alloc_padding a 8 < 8 /\
  (forall q, m_memoryBlock a + m_offset a <= q -> q mod 8 = 0 -> p <= q) /\
  m_offset (fst (Alloc a 8 8)) = m_offset a + Alloc_padding a 8 + 8.
Proof.
  apply (Alloc_returns_aligned_address (mkArena 4096 1024 1) 8 8).
  - unfold Active; simpl. rewrite modulus_value. lia.
  - reflexivity.
  - lia.
  - vm_compute. discriminate.
Defined.

(** C10: in an Active arena whose bump address is already a multiple of the
    power-of-two [align], the padding is 0 and [Alloc(0, align)] returns the
    non-null bump address and leaves the allocator as it was; when the arena
    is full that address is the one-past-the-end address of the buffer. *)
Theorem Alloc_zero_size_succeeds :
  forall (a : ArenaAllocator) (align : Z),
    Active a ->
    is_pow2 align = true ->
    (m_memoryBlock a + m_offset a) mod align = 0 ->
    Alloc_padding a align = 0 /\
    Alloc a 0 align = (a, m_memoryBlock a + m_offset a) /\
    m_memoryBlock a + m_offset a <> nullptr /\
    (m_offset a = m_totalSize a ->
     snd (Alloc a 0 align) = m_memoryBlock a + m_totalSize a /\
     snd (Alloc a 0 align) <> nullptr /\
     m_offset (fst (Alloc a 0 align)) = m_totalSize a).
Proof.
  intros a align Hactive Halign Hmod.
  assert (Hpad : Alloc_padding a align = 0).
  { rewrite (Alloc_padding_eq a align Hactive Halign), Hmod. reflexivity. }
  assert (Hall : Alloc a 0 align = (a, m_memoryBlock a + m_offset a)).
  { rewrite (Alloc_fits a align Hactive Halign 0); rewrite ?Hpad.
    - rewrite !Z.add_0_r. destruct a; reflexivity.
    - lia.
    - destruct Hactive as [_ [_ Ho]]. lia. }
  destruct Hactive as [Hb [Hc Ho]].
  repeat split; auto.
  - unfold nullptr. lia.
  - rewrite Hall. simpl. lia.
  - rewrite Hall. simpl. unfold nullptr. lia.
  - rewrite Hall. simpl. assumption.
Qed.

Lemma Alloc_zero_size_succeeds_witness :
  let a := mkArena 4096 64 64 in
  Alloc_padding a 16 = 0 /\
  Alloc a 0 16 = (a, 4160) /\
  4160 <> nullptr /\
  (m_offset a = m_totalSize a ->
   snd (Alloc a 0 16) = 4160 /\
   snd (Alloc a 0 16) <> nullptr /\
   m_offset (fst (Alloc a 0 16)) = 64).
Proof.
  apply (Alloc_zero_size_succeeds (mkArena 4096 64 64) 16).
  - unfold Active; simpl. rewrite modulus_value. lia.
  - reflexivity.
  - reflexivity.
Defined.

(** ** The capacity test wraps *)

(** C2: a 100-byte arena with 10 bytes used is asked for [2^64 - 5] bytes
    with alignment 1.  The padding is 0 and offset + padding + size exceeds
    the capacity, yet the sum of the capacity test wraps to 5: the call
    returns the non-null address [base + 10] and moves the offset back from
    10 to 5. *)
Theorem Alloc_accepts_wrapping_size :
  let a := mkArena 4096 100 10 in
  let size := modulus - 5 in
  Activeb a = true /\
  is_pow2 1 = true /\
  0 <= size < modulus /\
  Alloc_padding a 1 = 0 /\
  m_offset a + Alloc_padding a 1 + size > m_totalSize a /\
  Alloc a size 1 = (mkArena 4096 100 5, 4106) /\
  4106 <> nullptr.
Proof.
  vm_compute. repeat split; congruence.
Qed.

(** C4: on a 100-byte arena at address 4096, [Alloc(10, 1)] returns 4096,
    [Alloc(2^64 - 5, 1)] returns 4106 and [Alloc(1, 1)] returns 4101.  All
    three succeed and no reset separates them, but the third address is
    below the end of the first allocation (and of the second): the byte at
    4101 is handed out twice. *)
Theorem wrapping_size_makes_allocations_overlap :
  let fresh := mkMachine (mkArena 4096 100 0) (fun _ => 0) [] in
  construct 4096 100 = Some (arena fresh) /\
  addresses [CallAlloc 10 1; CallAlloc (modulus - 5) 1; CallAlloc 1 1] fresh
    = [4096; 4106; 4101] /\
  ~ (4101 >= 4096 + 10) /\
  ~ (4101 >= 4106 + (modulus - 5)).
Proof.
  vm_compute. repeat split; congruence.
Qed.

(** ** Resets *)

Lemma run_calls_frame (cs : list alloc_call) (s : machine) :
  m_memoryBlock (arena (run_calls cs s)) = m_memoryBlock (arena s) /\
  m_totalSize (arena (run_calls cs s)) = m_totalSize (arena s).
Proof.
  revert s. induction cs as [| c rest IH]; intros s; simpl.
  - auto.
  - destruct (IH (fst (call c s))) as [-> ->].
    apply (step_frame (OpCall c) s).
Qed.

(** The pointers an allocation sequence returns are a function of the
    allocator's three fields: memory contents and the log play no part. *)
Lemma addresses_depend_on_arena (cs : list alloc_call) :
  forall s1 s2 : machine,
    arena s1 = arena s2 -> addresses cs s1 = addresses cs s2.
Proof.
  induction cs as [| c rest IH]; intros s1 s2 Heq; simpl.
  - reflexivity.
  - destruct (call_Alloc c s1) as [Ha1 Hp1].
    destruct (call_Alloc c s2) as [Ha2 Hp2].
    rewrite Hp1, Hp2, Heq. f_equal.
    apply IH. rewrite Ha1, Ha2, Heq. reflexivity.
Qed.

(** C5: take [M = GetMarker()], perform any sequence of allocation calls,
    then [ResetToMarker(M)].  Afterwards [GetUsedMemory()] is [M], the
    allocator has the fields it had when the marker was taken, and any
    sequence of allocation calls returns the addresses it would have returned
    right after the marker was taken. *)
Theorem ResetToMarker_replays_addresses :
  forall (s : machine) (between later : list alloc_call),
    let M := snd (step OpGetMarker s) in
    let s' := fst (step (OpResetToMarker M) (run_calls between s)) in
    GetUsedMemory (arena s') = M /\
    arena s' = arena s /\
    addresses later s' = addresses later s.
Proof.
  intros s between later M s'.
  assert (Harena : arena s' = arena s).
  { subst s' M. simpl. unfold ResetToMarker, GetMarker.
    destruct (run_calls_frame between s) as [-> ->].
    destruct (arena s); reflexivity. }
  split; [| split].
  - subst s' M. reflexivity.
  - exact Harena.
  - apply addresses_depend_on_arena. exact Harena.
Qed.

(** A served request is served at the bump address plus its padding: the
    returned address does not depend on the size. *)
Lemma served_address (a : ArenaAllocator) (size align : Z) :
  snd (Alloc a size align) <> nullptr ->
  snd (Alloc a size align) =
  wrap (wrap (m_memoryBlock a + m_offset a) + Alloc_padding a align).
Proof.
  unfold Alloc. fold (Alloc_padding a align).
  destruct (_ >? _); simpl; intros Hserved.
  - now contradiction Hserved.
  - reflexivity.
Qed.

(** After [Alloc(100, 16)] and [Reset()] on a 1024-byte arena whose buffer
    is at 4112, [GetUsedMemory()] is 0, but the next allocation
    [Alloc(64, 64)] returns 4160 while the arena's first allocation returned
    4112: a next request with another alignment gets another padding. *)
Lemma next_allocation_with_other_alignment_differs :
  let fresh := mkMachine (mkArena 4112 1024 0) (fun _ => 0) [] in
  let first := snd (call (CallAlloc 100 16) fresh) in
  let s := fst (step OpReset (run [OpCall (CallAlloc 100 16)] fresh)) in
  let next := snd (call (CallAlloc 64 64) s) in
  construct 4112 1024 = Some (arena fresh) /\
  GetUsedMemory (arena s) = 0 /\
  first = 4112 /\ next = 4160 /\ next <> first.
Proof.
  vm_compute. repeat split; congruence.
Qed.

(** C6, amended: let an arena be constructed, serve a first allocation and
    then go through any further operations.  After [Reset()]
    [GetUsedMemory()] is 0; every allocation call returns the address the
    same call returns on the freshly constructed arena; and a next
    allocation that is requested with the alignment of the arena's first
    allocation returns, when both are served and whatever their sizes, the
    address of that first allocation.  Alloc(100), Reset(), Alloc(100) on a
    1024-byte arena is an instance. *)
Theorem Reset_restarts_at_first_address :
  forall (malloc_result sizeInBytes : Z) (a : ArenaAllocator) (m0 : memory)
         (first : alloc_call) (rest : list op) (next : alloc_call),
    construct malloc_result sizeInBytes = Some a ->
    let fresh := mkMachine a m0 [] in
    let s := fst (step OpReset (run (OpCall first :: rest) fresh)) in
    GetUsedMemory (arena s) = 0 /\
    (forall c : alloc_call, snd (call c s) = snd (call c fresh)) /\
    (snd (request next) = snd (request first) ->
     snd (call first fresh) <> nullptr ->
     snd (call next s) <> nullptr ->
     snd (call next s) = snd (call first fresh)).
Proof.
  intros malloc_result sizeInBytes a m0 first rest next Hctor fresh s.
  unfold construct in Hctor.
  destruct (malloc_result =? nullptr); [discriminate |].
  injection Hctor as <-.
  assert (Harena : arena s = arena fresh).
  { subst s. cbn [step fst with_arena arena]. unfold Reset.
    destruct (run_frame (OpCall first :: rest) fresh) as [-> ->]. reflexivity. }
  assert (Hsame : forall c : alloc_call, snd (call c s) = snd (call c fresh)).
  { intros c.
    destruct (call_Alloc c s) as [_ ->].
    destruct (call_Alloc c fresh) as [_ ->].
    rewrite Harena. reflexivity. }
  split; [reflexivity |]. split; [exact Hsame |].
  intros Halign Hfirst Hnext.
  rewrite Hsame in *.
  destruct (call_Alloc first fresh) as [_ Hf].
  destruct (call_Alloc next fresh) as [_ Hn].
  rewrite Hf in *. rewrite Hn in *.
  rewrite (served_address _ _ _ Hfirst), (served_address _ _ _ Hnext), Halign.
  reflexivity.
Qed.

Lemma Reset_restarts_at_first_address_witness :
  let fresh := mkMachine (mkArena 4112 1024 0) (fun _ => 0) [] in
  let first := CallAlloc 100 16 in
  let next := CallAlloc 50 16 in
  let s := fst (step OpReset
                  (run [OpCall first; OpCall (CallAlloc 64 64); OpGetMarker] fresh)) in
  (snd (call first fresh) = 4112 /\ snd (call next s) = 4112) /\
  (GetUsedMemory (arena s) = 0 /\
   (forall c : alloc_call, snd (call c s) = snd (call c fresh)) /\
   (snd (request next) = snd (request first) ->
    snd (call first fresh) <> nullptr ->
    snd (call next s) <> nullptr ->
    snd (call next s) = snd (call first fresh))).
Proof.
  split; [split; reflexivity |].
  apply (Reset_restarts_at_first_address 4112 1024 (mkArena 4112 1024 0)
           (fun _ => 0) (CallAlloc 100 16)
           [OpCall (CallAlloc 64 64); OpGetMarker] (CallAlloc 50 16)).
  reflexivity.
Defined.

(** ** Typed construction *)

Lemma Activeb_spec (a : ArenaAllocator) : Activeb a = true <-> Active a.
Proof.
  unfold Activeb, Active.
  rewrite !andb_true_iff, !Z.ltb_lt, !Z.leb_le. tauto.
Qed.

(** [New] when the sum of [Alloc]'s capacity test does not wrap. *)
Lemma New_no_wrap (s : machine) (T : cpp_type) (ctor : effect) :
  Active (arena s) ->
  is_pow2 (alignof T) = true ->
  0 <= sizeof T ->
  m_offset (arena s) + Alloc_padding (arena s) (alignof T) + sizeof T
    < modulus ->
  let a' := fst (Alloc (arena s) (sizeof T) (alignof T)) in
  let p := snd (Alloc (arena s) (sizeof T) (alignof T)) in
  let s' := fst (New s T ctor) in
  let r := snd (New s T ctor) in
  (r = nullptr <-> p = nullptr) /\
  (p = nullptr <->
   m_offset (arena s) + Alloc_padding (arena s) (alignof T) + sizeof T
     > m_totalSize (arena s)) /\
  (r = nullptr -> s' = s) /\
  (r <> nullptr ->
   r = p /\ arena s' = a' /\
   mem s' = ctor p (mem s) /\ log s' = log s ++ [Constructed p]).
Proof.
  intros Hactive Halign Hsize Hsum a' p s' r.
  subst a' p s' r. unfold New.
  pose proof (Alloc_padding_range (arena s) (alignof T) Hactive Halign) as Hr.
  rewrite (Alloc_no_wrap (arena s) (alignof T) Hactive Halign (sizeof T) Hsize Hsum).
  destruct Hactive as [Hb [Hc Ho]].
  set (pad := Alloc_padding (arena s) (alignof T)) in *.
  destruct (Z.gtb_spec (m_offset (arena s) + pad + sizeof T) (m_totalSize (arena s)))
    as [Hgt | Hle]; simpl.
  - split; [tauto |].
    split; [split; intros _; [lia | reflexivity] |].
    split; [intros _; destruct s; reflexivity |].
    intros Hne. now contradiction Hne.
  - rewrite wrap_small by lia.
    destruct (Z.eqb_spec (m_memoryBlock (arena s) + m_offset (arena s) + pad) nullptr)
      as [Heq | Hne]; [unfold nullptr in Heq; lia |].
    simpl.
    split; [tauto |].
    split; [split; intros H; [contradiction | lia] |].
    split; [intros H; contradiction |].
    intros _. repeat split; reflexivity.
Qed.

Lemma object_type_spec (T : cpp_type) :
  object_type T = true ->
  0 < sizeof T <= PTRDIFF_MAX /\ is_pow2 (alignof T) = true /\
  sizeof T mod alignof T = 0.
Proof.
  unfold object_type. rewrite !andb_true_iff.
  rewrite Z.ltb_lt, Z.leb_le, Z.eqb_eq. tauto.
Qed.

(** The size of an object type is at most [PTRDIFF_MAX + 1 - alignof]. *)
Lemma object_type_size_bound (T : cpp_type) :
  object_type T = true -> sizeof T + alignof T <= PTRDIFF_MAX + 1.
Proof.
  intros HT. destruct (object_type_spec T HT) as [Hsz [Hal Hmod]].
  destruct (is_pow2_spec _ Hal) as [k [Hk Hk2]].
  assert (Hpos : 0 < alignof T) by (rewrite Hk2; apply Z.pow_pos_nonneg; lia).
  apply Z.mod_divide in Hmod; [| lia]. destruct Hmod as [q Hq].
  assert (Hq1 : 1 <= q).
  { destruct (Z_le_gt_dec 1 q) as [H1 | H1]; [exact H1 | exfalso].
    assert (q * alignof T <= 0) by (apply Z.mul_nonpos_nonneg; lia). lia. }
  assert (Hle : alignof T <= sizeof T).
  { rewrite Hq. rewrite <- (Z.mul_1_l (alignof T)) at 1.
    apply Z.mul_le_mono_nonneg_r; lia. }
  assert (Hmax : PTRDIFF_MAX + 1 = 2 ^ 63) by reflexivity.
  assert (Hk63 : k < 63).
  { destruct (Z_lt_ge_dec k 63) as [Hlt | Hge]; [exact Hlt | exfalso].
    assert (2 ^ 63 <= 2 ^ k) by (apply Z.pow_le_mono_r; lia). lia. }
  assert (Hsplit : 2 ^ 63 = 2 ^ (63 - k) * alignof T).
  { rewrite Hk2, <- Z.pow_add_r by lia. f_equal. lia. }
  assert (Hq' : q < 2 ^ (63 - k)).
  { apply (Z.mul_lt_mono_pos_r (alignof T)); [exact Hpos |]. lia. }
  assert (Hstep : (q + 1) * alignof T <= 2 ^ (63 - k) * alignof T).
  { apply Z.mul_le_mono_nonneg_r; lia. }
  lia.
Qed.

(** In a buffer of at most [PTRDIFF_MAX] bytes the capacity test of
    [New<T>] never wraps. *)
Lemma object_type_no_wrap (a : ArenaAllocator) (T : cpp_type) :
  Active a ->
  m_totalSize a <= PTRDIFF_MAX ->
  object_type T = true ->
  m_offset a + Alloc_padding a (alignof T) + sizeof T < modulus.
Proof.
  intros Hactive Hcap HT.
  pose proof (object_type_size_bound T HT) as Hb.
  destruct (object_type_spec T HT) as [Hsz [Hal Hmod]].
  pose proof (Alloc_padding_range a (alignof T) Hactive Hal) as Hr.
  destruct Hactive as [_ [_ Ho]].
  assert (Hm : modulus = 2 * (PTRDIFF_MAX + 1)) by reflexivity.
  lia.
Qed.

(** C7: in an Active arena over a buffer of at most [PTRDIFF_MAX] bytes and
    for every object type [T], [New<T>] returns null exactly when
    [Alloc(sizeof(T), alignof(T))] does, which is exactly when the request
    does not fit; in that case the machine (allocator, memory and
    construction log) is unchanged, so nothing was constructed.  Otherwise
    [New<T>] returns the address [Alloc] returned, the allocator is the one
    [Alloc] left, and the only other effect is the constructor run at that
    address. *)
Theorem New_null_iff_Alloc_null :
  forall (s : machine) (T : cpp_type) (ctor : effect),
    Active (arena s) ->
    m_totalSize (arena s) <= PTRDIFF_MAX ->
    object_type T = true ->
    let a' := fst (Alloc (arena s) (sizeof T) (alignof T)) in
    let p := snd (Alloc (arena s) (sizeof T) (alignof T)) in
    let s' := fst (New s T ctor) in
    let r := snd (New s T ctor) in
    (r = nullptr <-> p = nullptr) /\
    (p = nullptr <->
     m_offset (arena s) + Alloc_padding (arena s) (alignof T) + sizeof T
       > m_totalSize (arena s)) /\
    (r = nullptr -> s' = s) /\
    (r <> nullptr ->
     r = p /\ arena s' = a' /\
     mem s' = ctor p (mem s) /\ log s' = log s ++ [Constructed p]).
Proof.
  intros s T ctor Hactive Hcap HT.
  destruct (object_type_spec T HT) as [Hsz [Hal Hmod]].
  apply New_no_wrap; auto; try lia.
  now apply object_type_no_wrap.
Qed.

Lemma New_null_iff_Alloc_null_witness :
  let s := mkMachine (mkArena 4096 100 96) (fun _ => 0) [] in
  let T := TestObj in
  let ctor := TestObj_ctor 65536 in
  let a' := fst (Alloc (arena s) (sizeof T) (alignof T)) in
  let p := snd (Alloc (arena s) (sizeof T) (alignof T)) in
  let s' := fst (New s T ctor) in
  let r := snd (New s T ctor) in
  (r = nullptr <-> p = nullptr) /\
  (p = nullptr <->
   m_offset (arena s) + Alloc_padding (arena s) (alignof T) + sizeof T
     > m_totalSize (arena s)) /\
  (r = nullptr -> s' = s) /\
  (r <> nullptr ->
   r = p /\ arena s' = a' /\
   mem s' = ctor p (mem s) /\ log s' = log s ++ [Constructed p]).
Proof.
  apply (New_null_iff_Alloc_null
           (mkMachine (mkArena 4096 100 96) (fun _ => 0) [])
           TestObj (TestObj_ctor 65536)).
  - unfold Active; simpl. rewrite modulus_value. lia.
  - simpl. unfold PTRDIFF_MAX, size_bits. simpl. lia.
  - reflexivity.
Defined.

(** ** Frame of the resets *)

(** C8: [Reset()] and [ResetToMarker(m)] change the offset and nothing
    else: buffer address, capacity, every byte of memory and the log of
    constructor and destructor calls are as before, so no destructor has
    run.  In the test-suite scenario, after [New<TestObj>(&flag)] and
    [Reset()] the flag still reads false, although the destructor of that
    object would set it. *)
Theorem resets_change_only_the_offset :
  (forall s : machine,
     let s' := fst (step OpReset s) in
     m_memoryBlock (arena s') = m_memoryBlock (arena s) /\
     m_totalSize (arena s') = m_totalSize (arena s) /\
     m_offset (arena s') = 0 /\
     mem s' = mem s /\ log s' = log s) /\
  (forall (s : machine) (marker : Marker),
     let s' := fst (step (OpResetToMarker marker) s) in
     m_memoryBlock (arena s') = m_memoryBlock (arena s) /\
     m_totalSize (arena s') = m_totalSize (arena s) /\
     m_offset (arena s') = marker /\
     mem s' = mem s /\ log s' = log s) /\
  (let flag := 65536 in
   let s0 := mkMachine (mkArena 4096 1024 0) (fun _ => 0) [] in
   let s1 := fst (New s0 TestObj (TestObj_ctor flag)) in
   let obj := snd (New s0 TestObj (TestObj_ctor flag)) in
   let s2 := fst (step OpReset s1) in
   obj <> nullptr /\
   log s2 = [Constructed obj] /\
   mem s2 flag = 0 /\
   mem (Destroy s1 TestObj_dtor obj) flag = 1).
Proof.
  split; [| split].
  - intros s s'. subst s'. simpl. repeat split; reflexivity.
  - intros s marker s'. subst s'. simpl. repeat split; reflexivity.
  - vm_compute. repeat split; congruence.
Qed.

(** ** Array allocation *)

(** C9: [AllocArray<T>(count)] asks [Alloc] for [sizeof(T) * count] reduced
    modulo [2^64].  For a 4-byte type and [count = 2^62 + 1] on an empty
    1024-byte arena the product exceeds [size_t], the call returns a
    non-null pointer, and 4 bytes, fewer than [count * sizeof(T)], have been
    reserved. *)
Theorem AllocArray_size_wraps :
  (forall (a : ArenaAllocator) (T : cpp_type) (count : Z),
     AllocArray a T count =
     Alloc a ((sizeof T * count) mod 2 ^ 64) (alignof T)) /\
  exists (a : ArenaAllocator) (T : cpp_type) (count : Z),
    Activeb a = true /\
    is_pow2 (alignof T) = true /\
    0 < sizeof T < modulus /\
    0 <= count < modulus /\
    sizeof T * count >= modulus /\
    snd (AllocArray a T count) <> nullptr /\
    m_offset (fst (AllocArray a T count)) - m_offset a = 4 /\
    m_offset (fst (AllocArray a T count)) - m_offset a < sizeof T * count /\
    m_totalSize a < sizeof T * count.
Proof.
  split.
  - intros a T count. reflexivity.
  - exists (mkArena 4096 1024 0), (mkType 4 4), (2 ^ 62 + 1).
    vm_compute. repeat split; congruence.
Qed.

(** ** Requests that cannot wrap *)

Lemma plain_request_spec (cap : Z) (c : alloc_call) :
  plain_request cap c = true ->
  is_pow2 (snd (request c)) = true /\ 0 <= fst (request c) /\
  cap + snd (request c) + fst (request c) <= modulus.
Proof.
  unfold plain_request. rewrite !andb_true_iff, !Z.leb_le. tauto.
Qed.

(** One call whose request cannot wrap: the arena stays Active, the offset
    does not decrease, a failed call changes nothing, and a served call
    returns a block that starts at or after the old bump address and ends at
    the new one. *)
Lemma call_plain (c : alloc_call) (s : machine) :
  Active (arena s) ->
  plain_request (m_totalSize (arena s)) c = true ->
  let s' := fst (call c s) in
  let p := snd (call c s) in
  Active (arena s') /\
  m_memoryBlock (arena s') = m_memoryBlock (arena s) /\
  m_totalSize (arena s') = m_totalSize (arena s) /\
  m_offset (arena s) <= m_offset (arena s') /\
  (p = nullptr -> arena s' = arena s) /\
  (p <> nullptr ->
   m_memoryBlock (arena s) + m_offset (arena s) <= p /\
   p + fst (request c) = m_memoryBlock (arena s) + m_offset (arena s')).
Proof.
  intros Hactive Hplain s' p. subst s' p.
  destruct (plain_request_spec _ _ Hplain) as [Hal [Hsize Hsum]].
  destruct (call_Alloc c s) as [-> ->].
  pose proof (Alloc_padding_range (arena s) _ Hactive Hal) as Hr.
  pose proof Hactive as [Hb [Hc Ho]].
  rewrite (Alloc_no_wrap (arena s) _ Hactive Hal _ Hsize) by lia.
  set (pad := Alloc_padding (arena s) (snd (request c))) in *.
  set (size := fst (request c)) in *.
  destruct (Z.gtb_spec (m_offset (arena s) + pad + size) (m_totalSize (arena s)))
    as [Hgt | Hle]; simpl.
  - repeat split; try tauto; try lia;
      intros Hne; now contradiction Hne.
  - rewrite wrap_small by lia.
    unfold Active, nullptr; simpl.
    repeat split; try lia.
Qed.

(** Every block served by a sequence of such calls starts at or after the
    bump address the sequence started from. *)
Lemma addresses_above_bump (cs : list alloc_call) :
  forall s : machine,
    Active (arena s) ->
    forallb (plain_request (m_totalSize (arena s))) cs = true ->
    Forall (fun q => q = nullptr \/
                     m_memoryBlock (arena s) + m_offset (arena s) <= q)
           (addresses cs s).
Proof.
  induction cs as [| c rest IH]; intros s Hactive Hall; simpl.
  - constructor.
  - simpl in Hall. apply andb_true_iff in Hall. destruct Hall as [Hc Hrest].
    destruct (call_plain c s Hactive Hc) as [Hact' [Hbase [Hcap [Hmono [_ Hserved]]]]].
    constructor.
    + destruct (Z.eq_dec (snd (call c s)) nullptr) as [Hn | Hn]; [now left | right].
      apply Hserved. exact Hn.
    + rewrite <- Hcap in Hrest.
      specialize (IH (fst (call c s)) Hact' Hrest).
      eapply Forall_impl; [| exact IH].
      simpl. intros q [Hq | Hq]; [now left | right].
      rewrite Hbase in Hq. lia.
Qed.

(** Without a wrapping request, allocations with no reset between them do
    not overlap: every block served after [A] starts at or after the end of
    [A], and [A] lies inside the buffer. *)
Lemma plain_allocations_do_not_overlap
      (s : machine) (A : alloc_call) (later : list alloc_call) :
  Active (arena s) ->
  plain_request (m_totalSize (arena s)) A = true ->
  forallb (plain_request (m_totalSize (arena s))) later = true ->
  snd (call A s) <> nullptr ->
  m_memoryBlock (arena s) <= snd (call A s) /\
  snd (call A s) + fst (request A)
    <= m_memoryBlock (arena s) + m_totalSize (arena s) /\
  Forall (fun q => q = nullptr \/ snd (call A s) + fst (request A) <= q)
         (addresses later (fst (call A s))).
Proof.
  intros Hactive HA Hlater Hserved.
  destruct (call_plain A s Hactive HA) as [Hact' [Hbase [Hcap [Hmono [_ Hblock]]]]].
  destruct (Hblock Hserved) as [Hlo Hhi].
  pose proof Hactive as [Hb [Hc Ho]].
  pose proof Hact' as [_ [_ Ho']].
  split; [lia |]. split; [lia |].
  rewrite <- Hcap in Hlater.
  pose proof (addresses_above_bump later (fst (call A s)) Hact' Hlater) as Hall.
  eapply Forall_impl; [| exact Hall].
  simpl. intros q [Hq | Hq]; [now left | right].
  rewrite Hbase in Hq. lia.
Qed.

(** [New] of a request that fits. *)
Lemma New_fits (s : machine) (T : cpp_type) (ctor : effect) :
  Active (arena s) ->
  is_pow2 (alignof T) = true ->
  0 <= sizeof T ->
  m_offset (arena s) + Alloc_padding (arena s) (alignof T) + sizeof T
    <= m_totalSize (arena s) ->
  arena (fst (New s T ctor)) =
    mkArena (m_memoryBlock (arena s)) (m_totalSize (arena s))
            (m_offset (arena s) + Alloc_padding (arena s) (alignof T) + sizeof T) /\
  snd (New s T ctor) =
    m_memoryBlock (arena s) + m_offset (arena s) + Alloc_padding (arena s) (alignof T).
Proof.
  intros Hactive Halign Hsize Hfit.
  destruct (call_Alloc (CallNew T ctor) s) as [Ha Hp].
  cbn [call request fst snd] in Ha, Hp.
  rewrite (Alloc_fits (arena s) (alignof T) Hactive Halign (sizeof T) Hsize Hfit)
    in Ha, Hp.
  split; assumption.
Qed.

(** X17: the test suite's alignment scenario: on a 1024-byte arena,
    [New<char>] then [New<double>] returns for the double a non-null
    address that is a multiple of 8. *)
Lemma TestAlignment_scenario
      (malloc_result : Z) (m0 : memory) (ctor_char ctor_double : effect) :
  0 < malloc_result -> malloc_result + 1024 < modulus ->
  let arena0 := mkMachine (mkArena malloc_result 1024 0) m0 [] in
  let c := New arena0 (mkType 1 1) ctor_char in
  let d := New (fst c) (mkType 8 8) ctor_double in
  snd c = malloc_result /\ snd d <> nullptr /\ snd d mod 8 = 0.
Proof.
  intros Hpos Hend arena0 c d.
  assert (Hact0 : Active (arena arena0)) by (unfold Active; simpl; lia).
  pose proof (Alloc_padding_range _ 1 Hact0 eq_refl) as Hr1.
  destruct (New_fits arena0 (mkType 1 1) ctor_char Hact0 eq_refl) as [Ha1 Hp1];
    [simpl; lia | simpl in *; lia |].
  fold c in Ha1, Hp1. cbn [sizeof alignof arena0 arena m_memoryBlock m_totalSize m_offset]
    in Ha1, Hp1, Hr1.
  assert (Hbase : m_memoryBlock (arena (fst c)) = malloc_result)
    by (rewrite Ha1; reflexivity).
  assert (Hcap : m_totalSize (arena (fst c)) = 1024)
    by (rewrite Ha1; reflexivity).
  assert (Hoff : m_offset (arena (fst c)) = 1)
    by (rewrite Ha1; cbn [m_offset]; lia).
  assert (Hact1 : Active (arena (fst c))).
  { unfold Active. rewrite Hbase, Hcap, Hoff. lia. }
  pose proof (Alloc_padding_range _ 8 Hact1 eq_refl) as Hr2.
  pose proof (Alloc_padding_aligns _ 8 Hact1 eq_refl) as Hal2.
  destruct (New_fits (fst c) (mkType 8 8) ctor_double Hact1 eq_refl) as [_ Hp2];
    [cbn [sizeof]; lia | cbn [sizeof alignof]; lia |].
  fold d in Hp2. cbn [sizeof alignof] in Hp2.
  split; [lia |].
  rewrite Hp2. split; [| exact Hal2].
  unfold nullptr. lia.
Qed.

(** * Further properties of the allocator *)

(** ** Requests that cannot wrap, continued *)

Lemma Active_after_fit (a : ArenaAllocator) (size align : Z) :
  Active a -> is_pow2 align = true -> 0 <= size ->
  m_offset a + Alloc_padding a align + size <= m_totalSize a ->
  Active (fst (Alloc a size align)).
Proof.
  intros Hactive Halign Hsize Hfit.
  pose proof (Alloc_padding_range a align Hactive Halign) as Hr.
  rewrite (Alloc_fits a align Hactive Halign size Hsize Hfit).
  destruct Hactive as [Hb [Hc Ho]].
  unfold Active; simpl. lia.
Qed.

Lemma run_calls_plain (cs : list alloc_call) :
  forall s : machine,
    Active (arena s) ->
    forallb (plain_request (m_totalSize (arena s))) cs = true ->
    Active (arena (run_calls cs s)) /\
    m_offset (arena s) <= m_offset (arena (run_calls cs s)).
Proof.
  induction cs as [| c rest IH]; intros s Hactive Hall; simpl.
  - split; [exact Hactive | lia].
  - simpl in Hall. apply andb_true_iff in Hall. destruct Hall as [Hc Hrest].
    destruct (call_plain c s Hactive Hc) as [Hact' [_ [Hcap [Hmono _]]]].
    rewrite <- Hcap in Hrest.
    destruct (IH (fst (call c s)) Hact' Hrest) as [Hact'' Hmono'].
    split; [exact Hact'' | lia].
Qed.

Lemma forallb_plain_app (cap : Z) (xs ys : list alloc_call) :
  forallb (plain_request cap) (xs ++ ys) = true ->
  forallb (plain_request cap) xs = true /\ forallb (plain_request cap) ys = true.
Proof.
  rewrite forallb_app. apply andb_true_iff.
Qed.

(** X1: for an Active arena and a request that cannot wrap, [Alloc] returns
    null exactly when offset + padding + size exceeds the capacity, and then
    the allocator is unchanged; otherwise the block starts at the aligned
    bump address, lies inside the buffer, the offset advances by padding plus
    size and the arena stays Active. *)
Theorem Alloc_fails_exactly_when_full :
  forall (a : ArenaAllocator) (size align : Z),
    Active a ->
    is_pow2 align = true ->
    0 <= size ->
    m_totalSize a + align + size <= modulus ->
    let a' := fst (Alloc a size align) in
    let p := snd (Alloc a size align) in
    (p = nullptr <->
     m_offset a + Alloc_padding a align + size > m_totalSize a) /\
    (p = nullptr -> a' = a) /\
    (p <> nullptr ->
     p = m_memoryBlock a + m_offset a + Alloc_padding a align /\
     m_offset a' = m_offset a + Alloc_padding a align + size /\
     m_memoryBlock a <= p /\
     p + size <= m_memoryBlock a + m_totalSize a /\
     Active a').
Proof.
  intros a size align Hactive Halign Hsize Hsum a' p. subst a' p.
  pose proof (Alloc_padding_range a align Hactive Halign) as Hr.
  pose proof Hactive as [Hb [Hc Ho]].
  rewrite (Alloc_no_wrap a align Hactive Halign size Hsize) by lia.
  destruct (Z.gtb_spec (m_offset a + Alloc_padding a align + size) (m_totalSize a))
    as [Hgt | Hle]; simpl.
  - split; [split; intros _; [lia | reflexivity] |].
    split; [reflexivity |].
    intros Hne. now contradiction Hne.
  - rewrite wrap_small by lia.
    assert (Hnn : m_memoryBlock a + m_offset a + Alloc_padding a align <> nullptr)
      by (unfold nullptr; lia).
    split; [split; intros H; [contradiction | lia] |].
    split; [intros H; contradiction |].
    intros _. unfold Active; simpl. repeat split; lia.
Qed.

Lemma Alloc_fails_exactly_when_full_witness :
  let a := mkArena 4096 100 83 in
  let a' := fst (Alloc a 50 16) in
  let p := snd (Alloc a 50 16) in
  (p = nullptr <->
   m_offset a + Alloc_padding a 16 + 50 > m_totalSize a) /\
  (p = nullptr -> a' = a) /\
  (p <> nullptr ->
   p = m_memoryBlock a + m_offset a + Alloc_padding a 16 /\
   m_offset a' = m_offset a + Alloc_padding a 16 + 50 /\
   m_memoryBlock a <= p /\
   p + 50 <= m_memoryBlock a + m_totalSize a /\
   Active a').
Proof.
  apply (Alloc_fails_exactly_when_full (mkArena 4096 100 83) 50 16).
  - unfold Active; simpl. rewrite modulus_value. lia.
  - reflexivity.
  - lia.
  - simpl. rewrite modulus_value. lia.
Defined.

(** X2: a request succeeds whenever size + align - 1 bytes remain, whatever
    the address of the buffer, and it then consumes fewer than size + align
    bytes. *)
Theorem Alloc_succeeds_with_slack :
  forall (a : ArenaAllocator) (size align : Z),
    Active a ->
    is_pow2 align = true ->
    0 <= size ->
    size + align - 1 <= m_totalSize a - m_offset a ->
    snd (Alloc a size align) <> nullptr /\
    size <= m_offset (fst (Alloc a size align)) - m_offset a < size + align.
Proof.
  intros a size align Hactive Halign Hsize Hslack.
  pose proof (Alloc_padding_range a align Hactive Halign) as Hr.
  pose proof Hactive as [Hb [Hc Ho]].
  rewrite (Alloc_fits a align Hactive Halign size Hsize) by lia.
  simpl. unfold nullptr. lia.
Qed.

Lemma Alloc_succeeds_with_slack_witness :
  snd (Alloc (mkArena 4099 100 5) 80 16) <> nullptr /\
  80 <= m_offset (fst (Alloc (mkArena 4099 100 5) 80 16)) - 5 < 80 + 16.
Proof.
  apply (Alloc_succeeds_with_slack (mkArena 4099 100 5) 80 16).
  - unfold Active; simpl. rewrite modulus_value. lia.
  - reflexivity.
  - lia.
  - simpl. lia.
Defined.

(** X3: in a sequence of allocation calls that cannot wrap, with no reset,
    a block served later starts at or after the end of every block served
    earlier, and both lie inside the buffer. *)
Theorem later_block_starts_after_earlier_block :
  forall (s : machine) (pre mid : list alloc_call) (A B : alloc_call),
    Active (arena s) ->
    forallb (plain_request (m_totalSize (arena s))) (pre ++ A :: mid ++ [B])
      = true ->
    snd (call A (run_calls pre s)) <> nullptr ->
    snd (call B (run_calls mid (fst (call A (run_calls pre s))))) <> nullptr ->
    m_memoryBlock (arena s) <= snd (call A (run_calls pre s)) /\
    snd (call A (run_calls pre s)) + fst (request A)
      <= snd (call B (run_calls mid (fst (call A (run_calls pre s))))) /\
    snd (call B (run_calls mid (fst (call A (run_calls pre s))))) + fst (request B)
      <= m_memoryBlock (arena s) + m_totalSize (arena s).
Proof.
  intros s pre mid A B Hactive Hall.
  set (sA := run_calls pre s).
  set (pA := snd (call A sA)).
  set (sB := run_calls mid (fst (call A sA))).
  set (pB := snd (call B sB)).
  intros HA HB.
  apply forallb_plain_app in Hall. destruct Hall as [Hpre Hrest].
  simpl in Hrest. apply andb_true_iff in Hrest. destruct Hrest as [HpA Hrest].
  apply forallb_plain_app in Hrest. destruct Hrest as [Hmid HpB].
  simpl in HpB. apply andb_true_iff in HpB. destruct HpB as [HpB _].
  destruct (run_calls_plain pre s Hactive Hpre) as [HactA _].
  destruct (run_calls_frame pre s) as [HbaseA HcapA]. fold sA in HactA, HbaseA, HcapA.
  rewrite <- HcapA in HpA, Hmid, HpB.
  destruct (call_plain A sA HactA HpA) as [HactA' [HbaseA' [HcapA' [_ [_ HblockA]]]]].
  destruct (HblockA HA) as [HloA HhiA]. fold pA in HloA, HhiA.
  rewrite <- HcapA' in Hmid, HpB.
  destruct (run_calls_plain mid _ HactA' Hmid) as [HactB HmonoB].
  destruct (run_calls_frame mid (fst (call A sA))) as [HbaseB HcapB].
  fold sB in HactB, HmonoB, HbaseB, HcapB.
  rewrite <- HcapB in HpB.
  destruct (call_plain B sB HactB HpB) as [HactB' [HbaseB' [HcapB' [_ [_ HblockB]]]]].
  destruct (HblockB HB) as [HloB HhiB]. fold pB in HloB, HhiB.
  destruct HactA as [_ [_ HoA]]. destruct HactB' as [_ [_ HoB']].
  repeat split; lia.
Qed.

Lemma later_block_starts_after_earlier_block_witness :
  let s := mkMachine (mkArena 4096 100 0) (fun _ => 0) [] in
  let pA := snd (call (CallAlloc 10 8) (run_calls [CallAlloc 3 1] s)) in
  let pB := snd (call (CallAlloc 4 4)
                   (run_calls [CallAlloc 200 1]
                      (fst (call (CallAlloc 10 8) (run_calls [CallAlloc 3 1] s))))) in
  pA = 4104 /\ pB = 4116 /\
  (4096 <= pA /\ pA + 10 <= pB /\ pB + 4 <= 4096 + 100).
Proof.
  split; [reflexivity |]. split; [reflexivity |].
  apply (later_block_starts_after_earlier_block
           (mkMachine (mkArena 4096 100 0) (fun _ => 0) [])
           [CallAlloc 3 1] [CallAlloc 200 1] (CallAlloc 10 8) (CallAlloc 4 4)).
  - unfold Active; simpl. rewrite modulus_value. lia.
  - vm_compute. reflexivity.
  - vm_compute. discriminate.
  - vm_compute. discriminate.
Defined.

(** X4: allocation calls that cannot wrap never lower the used memory: after
    any sequence of them the arena is still Active, with the same buffer and
    capacity, and [GetUsedMemory()] is at least what it was and at most
    [GetTotalSize()]. *)
Theorem used_memory_grows_without_reset :
  forall (s : machine) (cs : list alloc_call),
    Active (arena s) ->
    forallb (plain_request (m_totalSize (arena s))) cs = true ->
    GetUsedMemory (arena s) <= GetUsedMemory (arena (run_calls cs s))
      <= GetTotalSize (arena s) /\
    GetTotalSize (arena (run_calls cs s)) = GetTotalSize (arena s) /\
    m_memoryBlock (arena (run_calls cs s)) = m_memoryBlock (arena s).
Proof.
  intros s cs Hactive Hall.
  destruct (run_calls_plain cs s Hactive Hall) as [[_ [_ Ho]] Hmono].
  destruct (run_calls_frame cs s) as [Hbase Hcap].
  unfold GetUsedMemory, GetTotalSize. rewrite Hcap in Ho.
  repeat split; try assumption; lia.
Qed.

Lemma used_memory_grows_without_reset_witness :
  let s := mkMachine (mkArena 4096 100 0) (fun _ => 0) [] in
  let cs := [CallAlloc 80 16; CallAlloc 50 16; CallAllocArray (mkType 4 4) 3] in
  GetUsedMemory (arena s) <= GetUsedMemory (arena (run_calls cs s))
    <= GetTotalSize (arena s) /\
  GetTotalSize (arena (run_calls cs s)) = GetTotalSize (arena s) /\
  m_memoryBlock (arena (run_calls cs s)) = m_memoryBlock (arena s).
Proof.
  apply (used_memory_grows_without_reset
           (mkMachine (mkArena 4096 100 0) (fun _ => 0) [])
           [CallAlloc 80 16; CallAlloc 50 16; CallAllocArray (mkType 4 4) 3]).
  - unfold Active; simpl. rewrite modulus_value. lia.
  - vm_compute. reflexivity.
Defined.

(** X5: scoped allocation with a marker.  A block served before
    [GetMarker()] survives the scope: after any allocation calls and
    [ResetToMarker] of that marker, every block served later starts at or
    after the end of that block. *)
Theorem ResetToMarker_keeps_earlier_blocks :
  forall (s : machine) (A : alloc_call) (mid scope later : list alloc_call),
    Active (arena s) ->
    plain_request (m_totalSize (arena s)) A = true ->
    forallb (plain_request (m_totalSize (arena s))) mid = true ->
    forallb (plain_request (m_totalSize (arena s))) later = true ->
    snd (call A s) <> nullptr ->
    let at_marker := run_calls mid (fst (call A s)) in
    let M := snd (step OpGetMarker at_marker) in
    let after_scope := fst (step (OpResetToMarker M) (run_calls scope at_marker)) in
    Forall (fun q => q = nullptr \/ snd (call A s) + fst (request A) <= q)
           (addresses later after_scope).
Proof.
  intros s A mid scope later Hactive HA Hmid Hlater Hserved at_marker M after_scope.
  destruct (call_plain A s Hactive HA) as [HactA [HbaseA [HcapA [_ [_ Hblock]]]]].
  destruct (Hblock Hserved) as [_ Hend].
  rewrite <- HcapA in Hmid, Hlater.
  destruct (run_calls_plain mid _ HactA Hmid) as [HactM HmonoM].
  destruct (run_calls_frame mid (fst (call A s))) as [HbaseM HcapM].
  fold at_marker in HactM, HmonoM, HbaseM, HcapM.
  assert (Harena : arena after_scope = arena at_marker).
  { subst after_scope M. simpl. unfold ResetToMarker, GetMarker.
    destruct (run_calls_frame scope at_marker) as [-> ->].
    destruct (arena at_marker); reflexivity. }
  rewrite (addresses_depend_on_arena later after_scope at_marker Harena).
  rewrite <- HcapM in Hlater.
  pose proof (addresses_above_bump later at_marker HactM Hlater) as Hall.
  eapply Forall_impl; [| exact Hall].
  simpl. intros q [Hq | Hq]; [now left | right].
  rewrite HbaseM, HbaseA in Hq. lia.
Qed.

Lemma ResetToMarker_keeps_earlier_blocks_witness :
  let s := mkMachine (mkArena 4096 100 0) (fun _ => 0) [] in
  let A := CallAlloc 10 8 in
  let at_marker := run_calls [CallAlloc 3 1] (fst (call A s)) in
  let M := snd (step OpGetMarker at_marker) in
  let after_scope :=
    fst (step (OpResetToMarker M) (run_calls [CallAlloc 40 16] at_marker)) in
  Forall (fun q => q = nullptr \/ snd (call A s) + fst (request A) <= q)
         (addresses [CallAlloc 40 16; CallAlloc 200 1] after_scope).
Proof.
  apply (ResetToMarker_keeps_earlier_blocks
           (mkMachine (mkArena 4096 100 0) (fun _ => 0) [])
           (CallAlloc 10 8) [CallAlloc 3 1] [CallAlloc 40 16]
           [CallAlloc 40 16; CallAlloc 200 1]).
  - unfold Active; simpl. rewrite modulus_value. lia.
  - vm_compute. reflexivity.
  - vm_compute. reflexivity.
  - vm_compute. reflexivity.
  - vm_compute. discriminate.
Defined.

Lemma pow2_divides (small large : Z) :
  is_pow2 small = true -> is_pow2 large = true -> small <= large ->
  (small | large).
Proof.
  intros Hs Hl Hle.
  destruct (is_pow2_spec small Hs) as [j [Hj ->]].
  destruct (is_pow2_spec large Hl) as [k [Hk ->]].
  assert (Hjk : j <= k).
  { destruct (Z_le_gt_dec j k) as [H | H]; [exact H | exfalso].
    assert (2 ^ k < 2 ^ j) by (apply Z.pow_lt_mono_r; lia). lia. }
  exists (2 ^ (k - j)). rewrite <- Z.pow_add_r by lia. f_equal. lia.
Qed.

(** X6: allocations are packed.  After a served [Alloc(size1, align1)], a
    request whose alignment is no larger than [align1] and divides [size1]
    needs no padding: it is served at the address where the first block
    ends. *)
Theorem consecutive_allocations_are_contiguous :
  forall (a : ArenaAllocator) (size1 align1 size2 align2 : Z),
    Active a ->
    is_pow2 align1 = true -> is_pow2 align2 = true ->
    align2 <= align1 ->
    0 <= size1 -> size1 mod align2 = 0 ->
    0 <= size2 ->
    m_offset a + Alloc_padding a align1 + size1 + size2 <= m_totalSize a ->
    let first := Alloc a size1 align1 in
    let second := Alloc (fst first) size2 align2 in
    snd first <> nullptr /\
    snd second = snd first + size1 /\
    m_offset (fst second) = m_offset a + Alloc_padding a align1 + size1 + size2.
Proof.
  intros a size1 align1 size2 align2 Hactive Hal1 Hal2 Hle Hs1 Hmod Hs2 Hfit
         first second.
  pose proof (Alloc_padding_range a align1 Hactive Hal1) as Hr1.
  pose proof (Alloc_padding_aligns a align1 Hactive Hal1) as Haligned.
  pose proof (is_pow2_bounds align1 Hal1) as Hb1.
  pose proof (is_pow2_bounds align2 Hal2) as Hb2.
  assert (Hact1 : Active (fst first)).
  { subst first. apply Active_after_fit; auto. lia. }
  assert (Hfirst : first =
            (mkArena (m_memoryBlock a) (m_totalSize a)
                     (m_offset a + Alloc_padding a align1 + size1),
             m_memoryBlock a + m_offset a + Alloc_padding a align1)).
  { subst first. apply Alloc_fits; auto. lia. }
  assert (Hpad2 : Alloc_padding (fst first) align2 = 0).
  { rewrite (Alloc_padding_eq (fst first) align2 Hact1 Hal2).
    rewrite Hfirst. simpl.
    replace (m_memoryBlock a + (m_offset a + Alloc_padding a align1 + size1))
      with ((m_memoryBlock a + m_offset a + Alloc_padding a align1) + size1) by lia.
    assert (Hdiv : (align2 | m_memoryBlock a + m_offset a + Alloc_padding a align1 + size1)).
    { apply Z.divide_add_r.
      - apply Z.divide_trans with align1.
        + now apply pow2_divides.
        + apply Z.mod_divide; [lia | exact Haligned].
      - apply Z.mod_divide; [lia | exact Hmod]. }
    apply Z.mod_divide in Hdiv; [| lia]. rewrite Hdiv. reflexivity. }
  assert (Hsecond : second =
            (mkArena (m_memoryBlock (fst first)) (m_totalSize (fst first))
                     (m_offset (fst first) + Alloc_padding (fst first) align2 + size2),
             m_memoryBlock (fst first) + m_offset (fst first)
               + Alloc_padding (fst first) align2)).
  { subst second. apply Alloc_fits; auto.
    rewrite Hpad2, Hfirst. simpl. lia. }
  rewrite Hsecond, Hpad2, Hfirst. simpl.
  destruct Hactive as [Hb [_ Ho]]. unfold nullptr.
  repeat split; lia.
Qed.

Lemma consecutive_allocations_are_contiguous_witness :
  let a := mkArena 4098 1024 0 in
  let first := Alloc a 12 4 in
  let second := Alloc (fst first) 8 4 in
  snd first <> nullptr /\
  snd second = snd first + 12 /\
  m_offset (fst second) = m_offset a + Alloc_padding a 4 + 12 + 8.
Proof.
  apply (consecutive_allocations_are_contiguous (mkArena 4098 1024 0) 12 4 8 4).
  - unfold Active; simpl. rewrite modulus_value. lia.
  - reflexivity.
  - reflexivity.
  - lia.
  - lia.
  - reflexivity.
  - lia.
  - vm_compute. discriminate.
Defined.

(** ** Typed allocation in bulk *)

Lemma aligned_plus_multiple (p size align : Z) :
  0 < align -> p mod align = 0 -> size mod align = 0 ->
  forall i, (p + size * i) mod align = 0.
Proof.
  intros Hpos Hp Hsize i.
  apply Z.mod_divide; [lia |].
  apply Z.divide_add_r.
  - apply Z.mod_divide; [lia | exact Hp].
  - apply Z.divide_mul_l. apply Z.mod_divide; [lia | exact Hsize].
Qed.

(** X7: a loop of [n] calls of [New<T>] on an arena with room for the first
    padding and [n] objects never fails: the objects are laid out back to
    back from the first aligned address, each at a non-null address aligned
    for [T]. *)
Theorem repeated_New_fills_consecutive_slots :
  forall (n : nat) (s : machine) (T : cpp_type) (ctor : effect),
    Active (arena s) ->
    object_type T = true ->
    Alloc_padding (arena s) (alignof T) + Z.of_nat n * sizeof T
      <= m_totalSize (arena s) - m_offset (arena s) ->
    addresses (repeat (CallNew T ctor) n) s =
      map (fun i => m_memoryBlock (arena s) + m_offset (arena s)
                    + Alloc_padding (arena s) (alignof T)
                    + Z.of_nat i * sizeof T)
          (seq 0 n) /\
    Forall (fun p => p <> nullptr /\ p mod alignof T = 0)
           (addresses (repeat (CallNew T ctor) n) s).
Proof.
  intros n s T ctor Hactive HT Hroom.
  destruct (object_type_spec T HT) as [Hsz [Hal Hmod]].
  pose proof (is_pow2_bounds _ Hal) as Halb.
  assert (Heq : addresses (repeat (CallNew T ctor) n) s =
      map (fun i => m_memoryBlock (arena s) + m_offset (arena s)
                    + Alloc_padding (arena s) (alignof T)
                    + Z.of_nat i * sizeof T)
          (seq 0 n)).
  { revert s Hactive Hroom.
    induction n as [| k IH]; intros s Hactive Hroom; [reflexivity |].
    pose proof (Alloc_padding_range (arena s) (alignof T) Hactive Hal) as Hr.
    pose proof (Alloc_padding_aligns (arena s) (alignof T) Hactive Hal) as Haligned.
    pose proof Hactive as [Hb [Hc Ho]].
    rewrite Nat2Z.inj_succ in Hroom.
    assert (Hk : 0 <= Z.of_nat k * sizeof T) by (apply Z.mul_nonneg_nonneg; lia).
    destruct (New_fits s T ctor Hactive Hal) as [Ha1 Hp1]; [lia | lia |].
    assert (Hact1 : Active (arena (fst (New s T ctor)))).
    { rewrite Ha1. unfold Active; simpl. lia. }
    assert (Hpad1 : Alloc_padding (arena (fst (New s T ctor))) (alignof T) = 0).
    { rewrite (Alloc_padding_eq _ _ Hact1 Hal), Ha1. simpl.
      replace (m_memoryBlock (arena s)
               + (m_offset (arena s) + Alloc_padding (arena s) (alignof T) + sizeof T))
        with (m_memoryBlock (arena s) + m_offset (arena s)
              + Alloc_padding (arena s) (alignof T) + sizeof T * 1) by lia.
      rewrite (aligned_plus_multiple _ _ _ (proj1 Halb) Haligned Hmod 1).
      reflexivity. }
    cbn [repeat addresses call].
    rewrite Hp1. cbn [seq map]. f_equal; [simpl; lia |].
    rewrite (IH (fst (New s T ctor)) Hact1).
    - rewrite Hpad1, Ha1. cbn [m_memoryBlock m_offset].
      rewrite <- seq_shift, map_map.
      apply map_ext. intros i. rewrite Nat2Z.inj_succ. lia.
    - rewrite Hpad1, Ha1. cbn [m_totalSize m_offset]. lia. }
  split; [exact Heq |].
  rewrite Heq. apply Forall_forall. intros p Hin.
  apply in_map_iff in Hin. destruct Hin as [i [<- _]].
  pose proof (Alloc_padding_range (arena s) (alignof T) Hactive Hal) as Hr.
  pose proof (Alloc_padding_aligns (arena s) (alignof T) Hactive Hal) as Haligned.
  destruct Hactive as [Hb [Hc Ho]].
  split.
  - assert (0 <= Z.of_nat i * sizeof T) by (apply Z.mul_nonneg_nonneg; lia).
    unfold nullptr. lia.
  - rewrite (Z.mul_comm (Z.of_nat i)).
    apply aligned_plus_multiple; auto. lia.
Qed.

(** X8: [AllocArray<T>(count)] whose byte size fits returns a non-null array
    of [count] slots: every element address is aligned for [T], the
    elements follow each other at a stride of [sizeof(T)], and all of them
    lie between the old bump address and the new one. *)
Theorem AllocArray_elements_are_aligned_slots :
  forall (a : ArenaAllocator) (T : cpp_type) (count : Z),
    Active a ->
    object_type T = true ->
    0 <= count ->
    Alloc_padding a (alignof T) + sizeof T * count
      <= m_totalSize a - m_offset a ->
    snd (AllocArray a T count) <> nullptr /\
    m_offset (fst (AllocArray a T count)) =
      m_offset a + Alloc_padding a (alignof T) + sizeof T * count /\
    forall i, 0 <= i < count ->
      element_address (snd (AllocArray a T count)) T i mod alignof T = 0 /\
      m_memoryBlock a + m_offset a
        <= element_address (snd (AllocArray a T count)) T i /\
      element_address (snd (AllocArray a T count)) T i + sizeof T
        <= m_memoryBlock a + m_offset (fst (AllocArray a T count)) /\
      element_address (snd (AllocArray a T count)) T (i + 1)
        - element_address (snd (AllocArray a T count)) T i = sizeof T.
Proof.
  intros a T count Hactive HT Hcount Hroom.
  destruct (object_type_spec T HT) as [Hsz [Hal Hmod]].
  pose proof (is_pow2_bounds _ Hal) as Halb.
  pose proof (Alloc_padding_range a (alignof T) Hactive Hal) as Hr.
  pose proof (Alloc_padding_aligns a (alignof T) Hactive Hal) as Haligned.
  pose proof Hactive as [Hb [Hc Ho]].
  assert (Hbytes : 0 <= sizeof T * count) by (apply Z.mul_nonneg_nonneg; lia).
  unfold AllocArray.
  rewrite (wrap_small (sizeof T * count)) by lia.
  rewrite (Alloc_fits a (alignof T) Hactive Hal (sizeof T * count) Hbytes) by lia.
  cbn [fst snd m_offset]. unfold element_address.
  split; [unfold nullptr; lia |]. split; [reflexivity |].
  intros i Hi.
  assert (Hlo : 0 <= sizeof T * i) by (apply Z.mul_nonneg_nonneg; lia).
  assert (Hhi : sizeof T * (i + 1) <= sizeof T * count)
    by (apply Z.mul_le_mono_nonneg_l; lia).
  repeat split; try lia.
  apply aligned_plus_multiple; auto. lia.
Qed.

Lemma AllocArray_elements_are_aligned_slots_witness :
  let a := mkArena 4098 1024 0 in
  let T := mkType 4 4 in
  snd (AllocArray a T 5) <> nullptr /\
  m_offset (fst (AllocArray a T 5)) =
    m_offset a + Alloc_padding a (alignof T) + sizeof T * 5 /\
  forall i, 0 <= i < 5 ->
    element_address (snd (AllocArray a T 5)) T i mod alignof T = 0 /\
    m_memoryBlock a + m_offset a <= element_address (snd (AllocArray a T 5)) T i /\
    element_address (snd (AllocArray a T 5)) T i + sizeof T
      <= m_memoryBlock a + m_offset (fst (AllocArray a T 5)) /\
    element_address (snd (AllocArray a T 5)) T (i + 1)
      - element_address (snd (AllocArray a T 5)) T i = sizeof T.
Proof.
  apply (AllocArray_elements_are_aligned_slots (mkArena 4098 1024 0) (mkType 4 4) 5).
  - unfold Active; simpl. rewrite modulus_value. lia.
  - reflexivity.
  - lia.
  - vm_compute. discriminate.
Defined.

Lemma repeated_New_fills_consecutive_slots_witness :
  let n := Z.to_nat 1000000 in
  let Particle := mkType 16 4 in
  let s := mkMachine (mkArena 4096 20001024 0) (fun _ => 0) [] in
  addresses (repeat (CallNew Particle (fun _ m => m)) n) s =
    map (fun i => m_memoryBlock (arena s) + m_offset (arena s)
                  + Alloc_padding (arena s) (alignof Particle)
                  + Z.of_nat i * sizeof Particle)
        (seq 0 n) /\
  Forall (fun p => p <> nullptr /\ p mod alignof Particle = 0)
         (addresses (repeat (CallNew Particle (fun _ m => m)) n) s).
Proof.
  apply (repeated_New_fills_consecutive_slots
           (Z.to_nat 1000000)
           (mkMachine (mkArena 4096 20001024 0) (fun _ => 0) [])
           (mkType 16 4) (fun _ m => m)).
  - unfold Active; cbn [arena m_memoryBlock m_totalSize m_offset].
    rewrite modulus_value. lia.
  - reflexivity.
  - rewrite Z2Nat.id by lia.
    cbn [arena m_memoryBlock m_totalSize m_offset alignof sizeof].
    replace (Alloc_padding (mkArena 4096 20001024 0) 4) with 0 by reflexivity.
    lia.
Defined.

(** ** Ownership of the buffer *)

(** An allocator without a buffer serves nothing. *)
Lemma Alloc_on_empty (size align : Z) :
  Alloc (mkArena nullptr 0 0) size align = (mkArena nullptr 0 0, nullptr).
Proof.
  unfold Alloc. cbn [m_memoryBlock m_totalSize m_offset].
  change (wrap (nullptr + 0)) with 0.
  rewrite Z.land_0_l. cbn [Z.eqb].
  change (wrap (0 + 0)) with 0. rewrite !Z.add_0_l.
  pose proof (wrap_range size) as Hr.
  destruct (Z.gtb_spec (wrap size) 0) as [Hgt | Hle]; [reflexivity |].
  assert (Hz : wrap size = 0) by lia.
  rewrite Hz. reflexivity.
Qed.

Lemma NoDup_remove_Z (p : Z) (h : list Z) : NoDup h -> NoDup (remove Z.eq_dec p h).
Proof.
  induction 1 as [| x l Hx Hl IH]; simpl.
  - constructor.
  - destruct (Z.eq_dec p x); [exact IH |].
    constructor; [| exact IH].
    intros Hin. apply in_remove in Hin. tauto.
Qed.

Lemma existsb_eqb_In (p : Z) (h : list Z) : existsb (Z.eqb p) h = true <-> In p h.
Proof.
  rewrite existsb_exists. split.
  - intros [x [Hin Heq]]. apply Z.eqb_eq in Heq. now subst.
  - intros Hin. exists p. split; [exact Hin | apply Z.eqb_refl].
Qed.

Lemma free_owned (w : world) (i : nat) (a : ArenaAllocator) :
  owned w -> objs w i = Some a ->
  exists h', free (m_memoryBlock a) (cheap w) = Some h' /\
             NoDup h' /\ ~ In nullptr h' /\
             (forall q, In q h' <-> In q (cheap w) /\ q <> m_memoryBlock a).
Proof.
  intros [Hnd [Hnull [Hlive [Huniq Hown]]]] Hi.
  unfold free.
  destruct (Z.eqb_spec (m_memoryBlock a) nullptr) as [Hz | Hnz].
  - exists (cheap w).
    split; [reflexivity |]. split; [exact Hnd |]. split; [exact Hnull |].
    intros q. split; [| tauto].
    intros Hq. split; [exact Hq |].
    intros Heq. rewrite Heq, Hz in Hq. contradiction.
  - assert (Hin : In (m_memoryBlock a) (cheap w)) by (eapply Hlive; eauto).
    apply existsb_eqb_In in Hin. rewrite Hin.
    exists (remove Z.eq_dec (m_memoryBlock a) (cheap w)).
    split; [reflexivity |]. split; [now apply NoDup_remove_Z |].
    split.
    + intros H0. apply in_remove in H0. tauto.
    + intros q. split.
      * apply in_remove.
      * intros [Hq Hne]. now apply in_in_remove.
Qed.

Ltac split_update :=
  unfold update in *;
  repeat match goal with
         | H : context [Nat.eqb ?x ?y] |- _ => destruct (Nat.eqb_spec x y)
         | |- context [Nat.eqb ?x ?y] => destruct (Nat.eqb_spec x y)
         end;
  subst; try congruence.

Lemma alive_true (w : world) (i : nat) :
  alive w i = true -> exists a, objs w i = Some a.
Proof. unfold alive. destruct (objs w i); [eauto | discriminate]. Qed.

Lemma alive_false (w : world) (i : nat) :
  negb (alive w i) = true -> objs w i = None.
Proof. unfold alive. destruct (objs w i); [discriminate | reflexivity]. Qed.

Ltac inj_some :=
  repeat match goal with
         | H : Some _ = Some _ |- _ => injection H as H; subst
         end.

(* Closes the side conditions of [owned] after an update of the objects:
   a clause of the old invariant, applied to the objects involved. *)
Ltac by_owner Hlive Huniq :=
  split_update; inj_some; cbn [m_memoryBlock] in *;
  try contradiction; try congruence;
  try solve [eauto];
  try solve [right; eauto];
  try solve [exfalso; eauto];
  try solve [exfalso;
             match goal with
             | Hne : ?i <> ?j |- _ =>
                 apply Hne; first [eapply Huniq; eauto; congruence
                                  | symmetry; eapply Huniq; eauto; congruence]
             end].

Lemma life_step_owned (o : lifecycle_op) (w : world) :
  owned w -> in_lifetime o w = true ->
  exists w', life_step o w = Some w' /\ owned w'.
Proof.
  intros Hown Hpre.
  destruct o as [this r n | this | this other | this other | this o']; simpl in Hpre.
  - (* constructor *)
    apply andb_true_iff in Hpre. destruct Hpre as [Hdead Hfresh].
    apply alive_false in Hdead. simpl. rewrite Hdead.
    unfold construct. cbn zeta.
    destruct (Z.eqb_spec r nullptr) as [Hz | Hnz]; [eauto |].
    simpl in Hfresh. apply negb_true_iff in Hfresh.
    assert (Hnotin : ~ In r (cheap w)).
    { intros Hin. apply existsb_eqb_In in Hin. congruence. }
    eexists. split; [reflexivity |].
    destruct Hown as [Hnd [Hnull [Hlive [Huniq Hown]]]].
    unfold owned; cbn [objs cheap].
    split; [now constructor |].
    split; [intros [H | H]; [congruence | contradiction] |].
    split; [| split].
    + intros i a Hi Ha. by_owner Hlive Huniq. now left.
    + intros i j a b Hi Hj Hab Ha. by_owner Hlive Huniq.
      * exfalso. apply Hnotin. rewrite <- Hab. eauto.
      * exfalso. apply Hnotin. rewrite Hab. eapply Hlive; eauto. congruence.
    + intros p [<- | Hin].
      * exists this, (mkArena r n 0). split_update. auto.
      * destruct (Hown p Hin) as [i [a [Hi Ha]]].
        exists i, a. split_update. auto.
  - (* destructor *)
    apply alive_true in Hpre. destruct Hpre as [a Ha].
    unfold life_step, destroy. rewrite Ha.
    destruct (free_owned w this a Hown Ha) as [h' [-> [Hnd' [Hnull' Hin']]]].
    eexists. split; [reflexivity |].
    destruct Hown as [Hnd [Hnull [Hlive [Huniq Hown]]]].
    unfold owned; cbn [objs cheap].
    split; [exact Hnd' |]. split; [exact Hnull' |]. split; [| split].
    + intros i b Hi Hb. split_update. apply Hin'. split; [eauto |].
      intros Heq. apply n. eapply (Huniq i this b a); eauto.
    + intros i j b c Hi Hj Hbc Hb. split_update. eauto.
    + intros p Hp. apply Hin' in Hp. destruct Hp as [Hp Hne].
      destruct (Hown p Hp) as [i [b [Hi Hb]]].
      exists i, b. split_update. auto.
  - (* move constructor *)
    apply andb_true_iff in Hpre. destruct Hpre as [Hdead Hlive'].
    apply alive_false in Hdead. apply alive_true in Hlive'. destruct Hlive' as [b Hb].
    simpl. rewrite Hdead, Hb. eexists. split; [reflexivity |].
    destruct Hown as [Hnd [Hnull [Hlive [Huniq Hown]]]].
    unfold owned; cbn [objs cheap].
    split; [exact Hnd |]. split; [exact Hnull |]. split; [| split].
    + intros i a Hi Ha. by_owner Hlive Huniq.
    + intros i j a c Hi Hj Hac Ha. by_owner Hlive Huniq.
    + intros p Hp. destruct (Hown p Hp) as [i [a [Hi Ha]]].
      destruct (Nat.eq_dec i other) as [-> | Hne].
      * exists this, (mkArena (m_memoryBlock b) (m_totalSize b) (m_offset b)).
        split_update. simpl. split; congruence.
      * exists i, a. split_update. auto.
  - (* move assignment *)
    apply andb_true_iff in Hpre. destruct Hpre as [H1 H2].
    apply alive_true in H1, H2. destruct H1 as [a Ha]. destruct H2 as [b Hb].
    unfold life_step, move_assign. rewrite Ha, Hb.
    destruct (Nat.eqb_spec this other) as [Heq | Hne]; simpl; [eauto |].
    destruct (free_owned w this a Hown Ha) as [h' [-> [Hnd' [Hnull' Hin']]]].
    eexists. split; [reflexivity |].
    destruct Hown as [Hnd [Hnull [Hlive [Huniq Hown]]]].
    unfold owned; cbn [objs cheap].
    split; [exact Hnd' |]. split; [exact Hnull' |]. split; [| split].
    + intros i c Hi Hc. split_update; inj_some; cbn [m_memoryBlock] in *;
        try contradiction.
      * apply Hin'. split; [eauto |].
        intros Heq. apply Hne. symmetry. eapply (Huniq other this b a); eauto.
      * apply Hin'. split; [eauto |].
        intros Heq.
        match goal with Hn : i <> this |- _ => apply Hn end.
        eapply (Huniq i this c a); eauto.
    + intros i j c d Hi Hj Hcd Hc. by_owner Hlive Huniq.
    + intros p Hp. apply Hin' in Hp. destruct Hp as [Hp Hpa].
      destruct (Hown p Hp) as [i [c [Hi Hc]]].
      destruct (Nat.eq_dec i other) as [-> | Hio].
      * exists this, (mkArena (m_memoryBlock b) (m_totalSize b) (m_offset b)).
        split_update. simpl. split; congruence.
      * exists i, c. split_update. auto.
  - (* any other method *)
    apply alive_true in Hpre. destruct Hpre as [a Ha].
    simpl. rewrite Ha. eexists. split; [reflexivity |].
    destruct (step_frame o' (mkMachine a (wmem w) (wlog w))) as [Hblock _].
    cbn [arena] in Hblock.
    destruct Hown as [Hnd [Hnull [Hlive [Huniq Hown]]]].
    unfold owned; cbn [objs cheap].
    split; [exact Hnd |]. split; [exact Hnull |]. split; [| split].
    + intros i c Hi Hc. split_update; inj_some.
      * rewrite Hblock in *. eauto.
      * eauto.
    + intros i j c d Hi Hj Hcd Hc. split_update; inj_some;
        rewrite ?Hblock in *; eauto.
    + intros p Hp. destruct (Hown p Hp) as [i [c [Hi Hc]]].
      destruct (Nat.eq_dec i this) as [-> | Hne].
      * eexists this, _. split_update. split; [reflexivity |]. congruence.
      * exists i, c. split_update. auto.
Qed.

Lemma life_run_owned (ops : list lifecycle_op) :
  forall w : world,
    owned w -> scoped ops w = true ->
    exists w', life_run ops w = Some w' /\ owned w'.
Proof.
  induction ops as [| o rest IH]; intros w Hown Hsc; simpl.
  - eauto.
  - simpl in Hsc. apply andb_true_iff in Hsc. destruct Hsc as [Hpre Hrest].
    destruct (life_step_owned o w Hown Hpre) as [w1 [Hstep Hown1]].
    rewrite Hstep in *. now apply IH.
Qed.

(** X9: a program that constructs, uses, move-constructs, move-assigns
    (self-assignment included) and destroys allocators, each within its
    lifetime, never passes [free] a pointer that is not a live block; after
    it (hence after each of its prefixes) every live block belongs to
    exactly one allocator, and once every allocator is destroyed no block
    is left. *)
Theorem lifecycle_frees_each_buffer_once :
  forall (ops : list lifecycle_op) (m0 : memory),
    scoped ops (mkWorld no_objects [] m0 []) = true ->
    exists w,
      life_run ops (mkWorld no_objects [] m0 []) = Some w /\
      owned w /\
      ((forall i, objs w i = None) -> cheap w = []).
Proof.
  intros ops m0 Hsc.
  assert (Hown0 : owned (mkWorld no_objects [] m0 [])).
  { unfold owned, no_objects; cbn [objs cheap].
    split; [constructor |]. split; [intros [] |].
    split; [discriminate |]. split; [discriminate |]. intros p []. }
  destruct (life_run_owned ops _ Hown0 Hsc) as [w [Hrun Hown]].
  exists w. split; [exact Hrun |]. split; [exact Hown |].
  intros Hnone. destruct Hown as [_ [_ [_ [_ Howner]]]].
  destruct (cheap w) as [| p h]; [reflexivity | exfalso].
  destruct (Howner p (or_introl eq_refl)) as [i [a [Hi _]]].
  rewrite Hnone in Hi. discriminate.
Qed.

Lemma lifecycle_frees_each_buffer_once_witness :
  exists w,
    life_run [LConstruct 0 4096 100; LConstruct 1 8192 50;
              LUse 0 (OpCall (CallAlloc 10 8));
              LMoveAssign 0 1; LMoveAssign 0 0; LMoveConstruct 2 0;
              LConstruct 3 0 10;
              LDestroy 0; LDestroy 1; LDestroy 2]
             (mkWorld no_objects [] (fun _ => 0) []) = Some w /\
    owned w /\
    ((forall i, objs w i = None) -> cheap w = []).
Proof.
  apply (lifecycle_frees_each_buffer_once
           [LConstruct 0 4096 100; LConstruct 1 8192 50;
            LUse 0 (OpCall (CallAlloc 10 8));
            LMoveAssign 0 1; LMoveAssign 0 0; LMoveConstruct 2 0;
            LConstruct 3 0 10;
            LDestroy 0; LDestroy 1; LDestroy 2]
           (fun _ => 0)).
  vm_compute. reflexivity.
Defined.

(** X10: the move constructor hands the buffer, capacity and offset over
    unchanged and leaves an empty allocator behind; on that moved-from
    allocator every [Alloc], [New] and [AllocArray], whatever its arguments,
    returns null and changes nothing. *)
Theorem moved_from_arena_serves_nothing :
  forall (other : ArenaAllocator) (c : alloc_call) (m : memory) (l : list event),
    fst (move_construct other) = other /\
    GetUsedMemory (snd (move_construct other)) = 0 /\
    GetTotalSize (snd (move_construct other)) = 0 /\
    call c (mkMachine (snd (move_construct other)) m l) =
      (mkMachine (snd (move_construct other)) m l, nullptr).
Proof.
  intros other c m l. cbn [move_construct fst snd].
  split; [destruct other; reflexivity |].
  split; [reflexivity |]. split; [reflexivity |].
  destruct c as [size align | T ctor | T count];
    unfold call, New, AllocArray; cbn [arena mem log];
    rewrite Alloc_on_empty; reflexivity.
Qed.

(** ** Arguments outside the contract *)

(** The padding is below the alignment whatever the state of the arena. *)
Lemma Alloc_padding_below_align (a : ArenaAllocator) (align : Z) :
  is_pow2 align = true -> 0 <= Alloc_padding a align < align.
Proof.
  intros Hal. pose proof (is_pow2_bounds align Hal) as Hb.
  unfold Alloc_padding. rewrite mask_is_mod by exact Hal.
  set (cur := wrap (m_memoryBlock a + m_offset a)).
  pose proof (Z.mod_pos_bound cur align (proj1 Hb)) as Hr.
  destruct (Z.eqb_spec (cur mod align) 0) as [H0 | Hn]; [lia |].
  rewrite wrap_small by lia. lia.
Qed.

(** X11: [ResetToMarker] does not validate its argument.  With a marker
    beyond the capacity the offset is that marker, and every following
    request that cannot wrap fails and changes nothing. *)
Theorem marker_beyond_capacity_blocks_allocation :
  forall (a : ArenaAllocator) (marker size align : Z),
    is_pow2 align = true ->
    0 <= size ->
    0 <= marker ->
    m_totalSize a < marker ->
    marker + align + size <= modulus ->
    GetUsedMemory (ResetToMarker a marker) = marker /\
    Alloc (ResetToMarker a marker) size align =
      (ResetToMarker a marker, nullptr).
Proof.
  intros a marker size align Hal Hsize Hm Hcap Hsum.
  split; [reflexivity |].
  pose proof (Alloc_padding_below_align (ResetToMarker a marker) align Hal) as Hr.
  unfold Alloc. fold (Alloc_padding (ResetToMarker a marker) align).
  set (pad := Alloc_padding (ResetToMarker a marker) align) in *.
  cbn [ResetToMarker m_offset m_totalSize m_memoryBlock].
  rewrite (wrap_small (marker + pad)) by lia.
  rewrite (wrap_small (marker + pad + size)) by lia.
  destruct (Z.gtb_spec (marker + pad + size) (m_totalSize a)); [reflexivity | lia].
Qed.

Lemma marker_beyond_capacity_blocks_allocation_witness :
  GetUsedMemory (ResetToMarker (mkArena 4096 100 40) 101) = 101 /\
  Alloc (ResetToMarker (mkArena 4096 100 40) 101) 0 1 =
    (ResetToMarker (mkArena 4096 100 40) 101, nullptr).
Proof.
  apply (marker_beyond_capacity_blocks_allocation (mkArena 4096 100 40) 101 0 1).
  - reflexivity.
  - lia.
  - lia.
  - simpl. lia.
  - rewrite modulus_value. lia.
Defined.

(** X12: an alignment of 0 never yields memory: on an Active arena
    [Alloc(size, 0)] returns null for every size, and for a size below the
    buffer's address it leaves the allocator unchanged. *)
Theorem Alloc_with_zero_alignment_returns_null :
  forall (a : ArenaAllocator) (size : Z),
    Active a ->
    snd (Alloc a size 0) = nullptr /\
    (0 <= size < m_memoryBlock a -> Alloc a size 0 = (a, nullptr)).
Proof.
  intros a size [Hb [Hc Ho]].
  pose proof modulus_pos as Hm.
  assert (Hcur : wrap (m_memoryBlock a + m_offset a) = m_memoryBlock a + m_offset a)
    by (apply wrap_small; lia).
  assert (Hmask : wrap (0 - 1) = Z.ones size_bits) by reflexivity.
  assert (Hoff : Z.land (m_memoryBlock a + m_offset a) (wrap (0 - 1))
                 = m_memoryBlock a + m_offset a).
  { rewrite Hmask, Z.land_ones by (unfold size_bits; lia).
    apply Z.mod_small. fold modulus. lia. }
  assert (Hpad : wrap (0 - (m_memoryBlock a + m_offset a))
                 = modulus - (m_memoryBlock a + m_offset a)).
  { unfold wrap.
    replace (0 - (m_memoryBlock a + m_offset a))
      with (modulus - (m_memoryBlock a + m_offset a) + (-1) * modulus) by lia.
    rewrite Z.mod_add by lia. apply Z.mod_small. lia. }
  assert (Hnext : wrap (m_memoryBlock a + m_offset a
                        + (modulus - (m_memoryBlock a + m_offset a))) = 0).
  { replace (m_memoryBlock a + m_offset a
             + (modulus - (m_memoryBlock a + m_offset a))) with (0 + 1 * modulus) by lia.
    unfold wrap. rewrite Z.mod_add by lia. reflexivity. }
  unfold Alloc. rewrite Hcur, Hoff.
  destruct (Z.eqb_spec (m_memoryBlock a + m_offset a) 0) as [H0 | _]; [lia |].
  rewrite Hpad, Hnext.
  split.
  - destruct (_ >? _); reflexivity.
  - intros Hsize.
    replace (m_offset a + (modulus - (m_memoryBlock a + m_offset a)))
      with (modulus - m_memoryBlock a) by lia.
    rewrite (wrap_small (modulus - m_memoryBlock a)) by lia.
    rewrite (wrap_small (modulus - m_memoryBlock a + size)) by lia.
    destruct (Z.gtb_spec (modulus - m_memoryBlock a + size) (m_totalSize a));
      [reflexivity | lia].
Qed.

Lemma Alloc_with_zero_alignment_returns_null_witness :
  snd (Alloc (mkArena 4096 100 8) 16 0) = nullptr /\
  (0 <= 16 < 4096 -> Alloc (mkArena 4096 100 8) 16 0 = (mkArena 4096 100 8, nullptr)).
Proof.
  apply (Alloc_with_zero_alignment_returns_null (mkArena 4096 100 8) 16).
  unfold Active; simpl. rewrite modulus_value. lia.
Defined.

(** ** Markers and zero-size requests *)

(** X13: a marker stays valid across anything done after it was taken.
    Whatever operations follow [GetMarker()] (allocations, inner marker
    scopes, [Reset()]), [ResetToMarker] of that marker restores the
    allocator's three fields, and allocation calls then return the
    addresses they would have returned when the marker was taken. *)
Theorem marker_survives_any_operations :
  forall (s : machine) (ops : list op) (later : list alloc_call),
    let M := snd (step OpGetMarker s) in
    let s' := fst (step (OpResetToMarker M) (run ops s)) in
    arena s' = arena s /\
    GetUsedMemory (arena s') = M /\
    addresses later s' = addresses later s.
Proof.
  intros s ops later M s'.
  assert (Harena : arena s' = arena s).
  { subst s' M. simpl. unfold ResetToMarker, GetMarker.
    destruct (run_frame ops s) as [-> ->].
    destruct (arena s); reflexivity. }
  split; [exact Harena |]. split; [reflexivity |].
  now apply addresses_depend_on_arena.
Qed.



(** ** The test suite *)

Lemma is_pow2_half (align : Z) : is_pow2 align = true -> 2 * align <= modulus.
Proof.
  intros Hal. destruct (is_pow2_spec align Hal) as [k [Hk ->]].
  unfold size_bits in Hk.
  assert (2 ^ k <= 2 ^ 63) by (apply Z.pow_le_mono_r; lia).
  rewrite modulus_value. lia.
Qed.

(** X15: [TestOutOfMemory].  On a 100-byte arena whose buffer is aligned for
    the default alignment, as [malloc] guarantees, [Alloc(80)] returns the
    buffer address, the following [Alloc(50)] returns null and changes
    nothing, and [GetUsedMemory()] is 80 after both. *)
Theorem TestOutOfMemory_scenario :
  forall (malloc_result align : Z) (a : ArenaAllocator),
    construct malloc_result 100 = Some a ->
    0 < malloc_result -> malloc_result + 100 < modulus ->
    is_pow2 align = true ->
    malloc_result mod align = 0 ->
    let block1 := Alloc a 80 align in
    let block2 := Alloc (fst block1) 50 align in
    snd block1 = malloc_result /\ snd block1 <> nullptr /\
    snd block2 = nullptr /\
    fst block2 = fst block1 /\
    GetUsedMemory (fst block2) = 80.
Proof.
  intros malloc_result align a Hctor Hpos Hend Hal Hmod block1 block2.
  unfold construct in Hctor. cbn zeta in Hctor.
  destruct (malloc_result =? nullptr); [discriminate |].
  injection Hctor as <-.
  set (a := mkArena malloc_result 100 0) in *.
  assert (Hact : Active a) by (unfold Active, a; simpl; lia).
  pose proof (is_pow2_half align Hal) as Hhalf.
  pose proof (is_pow2_bounds align Hal) as Hb.
  pose proof modulus_value as Hmv.
  assert (Hpad : Alloc_padding a align = 0).
  { rewrite (Alloc_padding_eq a align Hact Hal). unfold a. simpl.
    rewrite Z.add_0_r, Hmod. reflexivity. }
  assert (H1 : block1 = (mkArena malloc_result 100 80, malloc_result)).
  { subst block1.
    rewrite (Alloc_fits a align Hact Hal 80); rewrite ?Hpad; unfold a; simpl; try lia.
    f_equal. lia. }
  assert (Hact1 : Active (fst block1)) by (rewrite H1; unfold Active; simpl; lia).
  pose proof (Alloc_padding_range (fst block1) align Hact1 Hal) as Hr.
  assert (H2 : block2 = (fst block1, nullptr)).
  { subst block2.
    rewrite (Alloc_no_wrap (fst block1) align Hact1 Hal 50);
      rewrite ?H1; cbn [fst m_offset m_totalSize]; try lia.
    - destruct (Z.gtb_spec (80 + Alloc_padding (mkArena malloc_result 100 80) align + 50) 100);
        [reflexivity |].
      rewrite H1 in Hr. cbn [fst] in Hr. lia.
    - rewrite H1 in Hr. cbn [fst] in Hr. lia. }
  rewrite H2, H1. cbn [fst snd]. unfold nullptr, GetUsedMemory. simpl.
  repeat split; lia.
Qed.

Lemma TestOutOfMemory_scenario_witness :
  let block1 := Alloc (mkArena 4096 100 0) 80 16 in
  let block2 := Alloc (fst block1) 50 16 in
  snd block1 = 4096 /\ snd block1 <> nullptr /\
  snd block2 = nullptr /\
  fst block2 = fst block1 /\
  GetUsedMemory (fst block2) = 80.
Proof.
  apply (TestOutOfMemory_scenario 4096 16 (mkArena 4096 100 0)).
  - reflexivity.
  - lia.
  - rewrite modulus_value. lia.
  - reflexivity.
  - reflexivity.
Defined.

Lemma TestAlignment_scenario_witness :
  let arena0 := mkMachine (mkArena 4096 1024 0) (fun _ => 0) [] in
  let c := New arena0 (mkType 1 1) (fun p m => store m p 65) in
  let d := New (fst c) (mkType 8 8) (fun _ m => m) in
  snd c = 4096 /\ snd d <> nullptr /\ snd d mod 8 = 0.
Proof.
  apply (TestAlignment_scenario 4096 (fun _ => 0)
           (fun p m => store m p 65) (fun _ m => m)).
  - lia.
  - rewrite modulus_value. lia.
Defined.

(** Little-endian stores and loads. *)
Lemma store_le_outside (n : nat) :
  forall (addr v : Z) (m : memory) (x : Z),
    x < addr \/ addr + Z.of_nat n <= x ->
    store_le n addr v m x = m x.
Proof.
  induction n as [| k IH]; intros addr v m x Hx; [reflexivity |].
  cbn [store_le]. rewrite Nat2Z.inj_succ in Hx.
  rewrite IH by lia. unfold store.
  destruct (Z.eqb_spec x addr); [lia | reflexivity].
Qed.

Lemma load_le_agree (n : nat) :
  forall (addr : Z) (m1 m2 : memory),
    (forall x, addr <= x < addr + Z.of_nat n -> m1 x = m2 x) ->
    load_le n addr m1 = load_le n addr m2.
Proof.
  induction n as [| k IH]; intros addr m1 m2 Heq; [reflexivity |].
  cbn [load_le]. rewrite Nat2Z.inj_succ in Heq.
  rewrite (Heq addr) by lia.
  rewrite (IH (addr + 1) m1 m2); [reflexivity |].
  intros x Hx. apply Heq. lia.
Qed.

Lemma load_store_le (n : nat) :
  forall (addr v : Z) (m : memory),
    load_le n addr (store_le n addr v m) = v mod 2 ^ (8 * Z.of_nat n).
Proof.
  induction n as [| k IH]; intros addr v m.
  - cbn [load_le]. change (2 ^ (8 * Z.of_nat 0)) with 1. now rewrite Z.mod_1_r.
  - cbn [load_le store_le].
    rewrite store_le_outside by lia.
    rewrite IH.
    unfold store. rewrite Z.eqb_refl.
    change 255 with (Z.ones 8). rewrite Z.land_ones by lia.
    rewrite Z.shiftr_div_pow2 by lia.
    replace (8 * Z.of_nat (S k)) with (8 + 8 * Z.of_nat k) by lia.
    rewrite Z.pow_add_r by lia.
    change (2 ^ 8) with 256.
    rewrite Z.rem_mul_r; [reflexivity | lia |].
    apply Z.pow_pos_nonneg; lia.
Qed.

(** X16: [TestNoDestructorCallOnReset].  When [New<TestObj>(&flag)] is
    served and the flag lies outside the object, the flag reads false after
    [Reset()] and after any [ResetToMarker], and the reset adds nothing to
    the log of constructor and destructor calls; the destructor of that
    object, had it run, would have set the flag. *)
Theorem TestObj_flag_stays_false_after_reset :
  forall (s : machine) (flag : Z) (marker : Marker),
    0 <= flag < modulus ->
    snd (New s TestObj (TestObj_ctor flag)) <> nullptr ->
    flag < snd (New s TestObj (TestObj_ctor flag)) \/
    snd (New s TestObj (TestObj_ctor flag)) + 8 <= flag ->
    let s1 := fst (New s TestObj (TestObj_ctor flag)) in
    let obj := snd (New s TestObj (TestObj_ctor flag)) in
    mem (fst (step OpReset s1)) flag = 0 /\
    mem (fst (step (OpResetToMarker marker) s1)) flag = 0 /\
    log (fst (step OpReset s1)) = log s ++ [Constructed obj] /\
    mem (Destroy s1 TestObj_dtor obj) flag = 1.
Proof.
  intros s flag marker Hflag Hserved Hout s1 obj.
  subst s1 obj. revert Hserved Hout. unfold New.
  destruct (Alloc (arena s) (sizeof TestObj) (alignof TestObj)) as [a' p].
  destruct (Z.eqb_spec p nullptr) as [Hz | Hnz]; cbn [fst snd];
    intros Hserved Hout; [contradiction |].
  cbn [step with_arena mem log fst Destroy].
  assert (Hctor : TestObj_ctor flag p (mem s) flag = 0).
  { unfold TestObj_ctor, store. now rewrite Z.eqb_refl. }
  split; [exact Hctor |]. split; [exact Hctor |]. split; [reflexivity |].
  unfold TestObj_dtor.
  assert (Hload : load_le 8 p (TestObj_ctor flag p (mem s)) = flag).
  { unfold TestObj_ctor.
    rewrite (load_le_agree 8 p _ (store_le 8 p flag (mem s))).
    - rewrite load_store_le. apply Z.mod_small. exact Hflag.
    - intros x Hx. unfold store.
      destruct (Z.eqb_spec x flag); [lia | reflexivity]. }
  rewrite Hload. unfold store. now rewrite Z.eqb_refl.
Qed.

Lemma TestObj_flag_stays_false_after_reset_witness :
  let s := mkMachine (mkArena 4096 1024 0) (fun _ => 7) [] in
  let s1 := fst (New s TestObj (TestObj_ctor 65536)) in
  let obj := snd (New s TestObj (TestObj_ctor 65536)) in
  mem (fst (step OpReset s1)) 65536 = 0 /\
  mem (fst (step (OpResetToMarker 0) s1)) 65536 = 0 /\
  log (fst (step OpReset s1)) = log s ++ [Constructed obj] /\
  mem (Destroy s1 TestObj_dtor obj) 65536 = 1.
Proof.
  apply (TestObj_flag_stays_false_after_reset
           (mkMachine (mkArena 4096 1024 0) (fun _ => 7) []) 65536 0).
  - rewrite modulus_value. lia.
  - vm_compute. discriminate.
  - right. vm_compute. discriminate.
Defined.
